(** * ConditionSet: the condition-expression engine of Endless Sky

    A shallow embedding of [source/ConditionSet.cpp]: the operator table
    [Op], the construction of a condition tree from data nodes ([Load],
    [Add]), its serialisation ([Save]) and its two evaluation modes
    ([Test], [Apply]), followed by the properties established about them. *)

From Stdlib Require Import ZArith String List Lia.
From Stdlib Require Import DecimalString DecimalZ.
From stdpp Require Import gmap strings list.

#[local] Set Warnings "-clear-no-such-hyp".

Local Open Scope string_scope.
Local Open Scope list_scope.
Local Open Scope Z_scope.

(** ** Machine integers

    The C++ type [int] is modelled as [Z], restricted to 32 bits.
    Results that leave the range (signed overflow, which C++ leaves
    undefined) are reduced by two's complement wrap-around. *)

Module Int.

Definition INT_MIN : Z := - 2 ^ 31.
Definition INT_MAX : Z := 2 ^ 31 - 1.

Definition in_range (z : Z) : Prop := INT_MIN <= z <= INT_MAX.

Definition wrap (z : Z) : Z := (z + 2 ^ 31) mod 2 ^ 32 - 2 ^ 31.

(** [a + b] and [a - b] on [int]. *)
Definition add (a b : Z) : Z := wrap (a + b).
Definition sub (a b : Z) : Z := wrap (a - b).

(** [std::min(a, b)] is [(b < a) ? b : a]; [std::max(a, b)] is
    [(a < b) ? b : a]. *)
Definition min (a b : Z) : Z := if b <? a then b else a.
Definition max (a b : Z) : Z := if a <? b then b else a.

(** Conversion of a [bool] to [int] and of an [int] to [bool]. *)
Definition of_bool (b : bool) : Z := if b then 1 else 0.
Definition to_bool (z : Z) : bool := negb (z =? 0).

End Int.

(** ** The operator table *)

Definition BinFun : Type := Z -> Z -> Z.

(** The static [opMap] of [Op]: each operator token with the function it is
    bound to.  In each function [a] is the condition's current value and [b]
    the operand. *)
Definition opMap : list (string * BinFun) :=
  [ ("==", fun a b => Int.of_bool (a =? b));
    ("!=", fun a b => Int.of_bool (negb (a =? b)));
    ("<", fun a b => Int.of_bool (a <? b));
    (">", fun a b => Int.of_bool (a >? b));
    ("<=", fun a b => Int.of_bool (a <=? b));
    (">=", fun a b => Int.of_bool (a >=? b));
    ("=", fun a b => b);
    ("+=", fun a b => Int.add a b);
    ("-=", fun a b => Int.sub a b);
    ("<?=", fun a b => Int.min a b);
    (">?=", fun a b => Int.max a b) ].

(** [opMap.find(op)]: [None] stands for [opMap.end()]. *)
Fixpoint map_find {V : Type} (key : string) (m : list (string * V)) : option V :=
  match m with
  | [] => None
  | (k, v) :: m' => if String.eqb k key then Some v else map_find key m'
  end.

(** [Op(op)]: the bound function, or [None] for [nullptr]. *)
Definition Op (op : string) : option BinFun := map_find op opMap.

(** The tokens the table knows. *)
Definition operator_tokens : list string :=
  ["=="; "!="; "<"; ">"; "<="; ">="; "="; "+="; "-="; "<?="; ">?="].

(** The value of the function bound to [op] at [(a, b)], if any. *)
Definition Op_apply (op : string) (a b : Z) : option Z :=
  match Op op with
  | Some f => Some (f a b)
  | None => None
  end.

(** ** The condition tree *)

(** An expression: [fun_] is the function pointer the constructor looks up
    from [op]; it is [None] (null) when the token is not in the table. *)
Record Expression : Type := mkExpression {
  name : string;
  op : string;
  fun_ : option BinFun;
  value : Z
}.

(** [Expression::Expression(name, op, value)]. *)
Definition Expression_new (name op : string) (value : Z) : Expression :=
  {| name := name; op := op; fun_ := Op op; value := value |}.

#[local] Unset Elimination Schemes.
Inductive ConditionSet : Type := mkConditionSet {
  isOr : bool;
  expressions : list Expression;
  children : list ConditionSet
}.
#[local] Set Elimination Schemes.

(** A default-constructed [ConditionSet]. *)
Definition ConditionSet_new : ConditionSet :=
  {| isOr := false; expressions := []; children := [] |}.

Definition IsEmpty (self : ConditionSet) : bool :=
  match expressions self, children self with
  | [], [] => true
  | _, _ => false
  end.

(** ** Data nodes, diagnostics and the writer *)

(** Modelled from the spec: [DataNode] (DataNode.h is not among the sources),
    one tokenized line with its child lines.  It exposes the number of
    tokens, the token text by index, the numeric value of a token and its
    child nodes. *)
#[local] Unset Elimination Schemes.
Inductive DataNode : Type := mkDataNode {
  tokens : list string;
  nodes : list DataNode
}.
#[local] Set Elimination Schemes.

(** Modelled from the spec: [DataNode::Size], the number of tokens. *)
Definition Size (node : DataNode) : Z := Z.of_nat (length (tokens node)).

(** Modelled from the spec: [DataNode::Token], the token text by index.
    [Add] only asks for tokens below [Size]; [Load] asks for the first token
    of its node, which is the empty string here for a node without tokens. *)
Definition Token (node : DataNode) (index : nat) : string :=
  nth index (tokens node) "".

(** Modelled from the spec: the text the writer produces for an [int], its
    decimal notation. *)
Definition int_token (v : Z) : string := NilZero.string_of_int (Z.to_int v).

(** Modelled from the spec: the numeric value of a token in decimal
    notation, 0 for a token that is not an integer literal. *)
Definition token_value (s : string) : Z :=
  match NilZero.int_of_string s with
  | Some d => Z.of_int d
  | None => 0
  end.

(** Modelled from the spec: [DataNode::Value], the numeric value of the
    token at an index. *)
Definition Value (node : DataNode) (index : nat) : Z :=
  token_value (Token node index).

(** Modelled from the spec: the external diagnostic sink, as the list of the
    messages reported so far, each with the line it is about. *)
Abbreviation Diagnostics := (list (string * list string)).

(** Modelled from the spec: [DataNode::PrintTrace] appends the message and
    the tokens of the line to the sink. *)
Definition PrintTrace (node : DataNode) (message : string)
    (sink : Diagnostics) : Diagnostics :=
  sink ++ [(message, tokens node)].

(** Modelled from the spec: [DataWriter] (DataWriter.h is not among the
    sources) writes records of tokens and scoped nested blocks.  Its state is
    the records written at the current nesting level together with the
    enclosing levels that are still open; a finished block becomes the child
    lines of the record written just before it. *)
Record DataWriter : Type := mkDataWriter {
  written : list DataNode;
  enclosing : list (list DataNode)
}.

Definition DataWriter_new : DataWriter :=
  {| written := []; enclosing := [] |}.

(** Modelled from the spec: [DataWriter::Write] writes one record of tokens
    at the current nesting level. *)
Definition Write (record : list string) (out : DataWriter) : DataWriter :=
  {| written := written out ++ [mkDataNode record []];
     enclosing := enclosing out |}.

(** Modelled from the spec: [DataWriter::BeginChild] opens a nested block. *)
Definition BeginChild (out : DataWriter) : DataWriter :=
  {| written := []; enclosing := written out :: enclosing out |}.

(** The block [block] is attached below the last record of [level]. *)
Fixpoint attach (level block : list DataNode) : list DataNode :=
  match level with
  | [] => []
  | [parent] => [mkDataNode (tokens parent) (nodes parent ++ block)]
  | line :: level' => line :: attach level' block
  end.

(** Modelled from the spec: [DataWriter::EndChild] closes the innermost
    open block, which becomes the block of the record written before it. *)
Definition EndChild (out : DataWriter) : DataWriter :=
  match enclosing out with
  | level :: outer => {| written := attach level (written out); enclosing := outer |}
  | [] => out
  end.

(** ** Construction: [Add] and [Load] *)

(** [expressions.emplace_back(...)]. *)
Definition emplace_back (self : ConditionSet) (e : Expression) : ConditionSet :=
  {| isOr := isOr self;
     expressions := expressions self ++ [e];
     children := children self |}.

(** [children.emplace_back()] followed by the [Load] that fills the new
    child: the finished child ends up last among the children. *)
Definition push_child (self child : ConditionSet) : ConditionSet :=
  {| isOr := isOr self;
     expressions := expressions self;
     children := children self ++ [child] |}.

(** [Add(firstToken, secondToken)]: a unary operator line. *)
Definition Add_unary (firstToken secondToken : string) (self : ConditionSet)
    : bool * ConditionSet :=
  if String.eqb firstToken "not" then
    (true, emplace_back self (Expression_new secondToken "==" 0))
  else if String.eqb firstToken "has" then
    (true, emplace_back self (Expression_new secondToken "!=" 0))
  else if String.eqb firstToken "set" then
    (true, emplace_back self (Expression_new secondToken "=" 1))
  else if String.eqb firstToken "clear" then
    (true, emplace_back self (Expression_new secondToken "=" 0))
  else if String.eqb secondToken "++" then
    (true, emplace_back self (Expression_new firstToken "+=" 1))
  else if String.eqb secondToken "--" then
    (true, emplace_back self (Expression_new firstToken "-=" 1))
  else
    (false, self).

(** [isnan] applied to an [int]: the argument converts to a finite double. *)
Definition isnan (value : Z) : bool := false.

(** [Add(name, op, value)]: a binary operator line. *)
Definition Add_binary (name op : string) (value : Z) (self : ConditionSet)
    : bool * ConditionSet :=
  match Op op with
  | None => (false, self)
  | Some _ =>
      if isnan value then (false, self)
      else (true, emplace_back self (Expression_new name op value))
  end.

Definition unrecognized : string := "Unrecognized condition expression:".

(** [Add(node)]: read a single condition from a data node.  The numeric
    value of the third token is converted to [int] for [Add_binary] (by
    wrap-around when it is out of range, where C++ leaves the conversion
    undefined).  For a
    nested set, [children.back().Load(node)] is written out in place: the
    combinator of the new child and the loop over the lines of [node] (the
    loop is [Add_each] below, the whole is [Load]). *)
Fixpoint Add (node : DataNode) (self : ConditionSet) (sink : Diagnostics)
    {struct node} : ConditionSet * Diagnostics :=
  if Size node =? 2 then
    let (ok, self') := Add_unary (Token node 0) (Token node 1) self in
    if negb ok then (self', PrintTrace node unrecognized sink)
    else (self', sink)
  else if Size node =? 3 then
    let (ok, self') :=
      Add_binary (Token node 0) (Token node 1) (Int.wrap (Value node 2)) self in
    if negb ok then (self', PrintTrace node unrecognized sink)
    else (self', sink)
  else if (Size node =? 1) && String.eqb (Token node 0) "never" then
    (emplace_back self (Expression_new "" "!=" 0), sink)
  else if (Size node =? 1)
          && (String.eqb (Token node 0) "and" || String.eqb (Token node 0) "or") then
    let fresh :=
      {| isOr := String.eqb (Token node 0) "or";
         expressions := expressions ConditionSet_new;
         children := children ConditionSet_new |} in
    let (child, sink') :=
      (fix each (lines : list DataNode) (acc : ConditionSet * Diagnostics) :=
         match lines with
         | [] => acc
         | line :: lines' => each lines' (Add line (fst acc) (snd acc))
         end) (nodes node) (fresh, sink) in
    (push_child self child, sink')
  else
    (self, PrintTrace node unrecognized sink).

(** The loop [for(const DataNode &child : node) Add(child);]. *)
Fixpoint Add_each (lines : list DataNode) (acc : ConditionSet * Diagnostics)
    : ConditionSet * Diagnostics :=
  match lines with
  | [] => acc
  | line :: lines' => Add_each lines' (Add line (fst acc) (snd acc))
  end.

(** [Load(node)]: sets the combinator from the first token, then adds
    every child line. *)
Definition Load (node : DataNode) (self : ConditionSet) (sink : Diagnostics)
    : ConditionSet * Diagnostics :=
  Add_each (nodes node)
    ({| isOr := String.eqb (Token node 0) "or";
        expressions := expressions self;
        children := children self |}, sink).

(** ** Serialisation: [Save] *)

Definition Save_expressions (es : list Expression) (out : DataWriter) : DataWriter :=
  fold_left
    (fun out e => Write [name e; op e; int_token (value e)] out) es out.

Fixpoint Save (self : ConditionSet) (out : DataWriter) {struct self} : DataWriter :=
  let out := Save_expressions (expressions self) out in
  (fix each (cs : list ConditionSet) (out : DataWriter) : DataWriter :=
     match cs with
     | [] => out
     | child :: cs' =>
         let out := Write [if isOr child then "or" else "and"] out in
         let out := BeginChild out in
         let out := Save child out in
         let out := EndChild out in
         each cs' out
     end) (children self) out.

(** ** Evaluation: the world, [Test] and [Apply] *)

(** What evaluation can see and change: the caller's [conditions] map and the
    random source, given by the sequence [source] of the values successive
    draws return and the number [drawn] of draws made so far. *)
Record World : Type := mkWorld {
  conditions : gmap string Z;
  source : nat -> Z;
  drawn : nat
}.

(** Every draw of the source lies in [0, upper). *)
Definition draws_below (upper : Z) (w : World) : Prop :=
  forall k : nat, 0 <= source w k < upper.

(** Computations over the world; [None] is a call through a null function
    pointer, after which nothing is defined. *)
Definition M (A : Type) : Type := World -> option (A * World).

Definition ret {A : Type} (a : A) : M A := fun w => Some (a, w).

Definition bind {A B : Type} (c : M A) (k : A -> M B) : M B :=
  fun w =>
    match c w with
    | Some (a, w') => k a w'
    | None => None
    end.

Notation "'do' x <- c1 ; c2" := (bind c1 (fun x => c2))
  (at level 10, x name, c1 at level 100, c2 at level 200).

(** [conditions.find(name)], with [None] for [conditions.end()]. *)
Definition conditions_find (key : string) : M (option Z) :=
  fun w => Some (conditions w !! key, w).

(** [conditions[name]]: the entry is created with value 0 when it is absent;
    the reference is represented by the value it holds. *)
Definition conditions_index (key : string) : M Z :=
  fun w =>
    match conditions w !! key with
    | Some v => Some (v, w)
    | None =>
        Some (0, {| conditions := <[key := 0]> (conditions w);
                    source := source w; drawn := drawn w |})
    end.

(** Assignment through the reference obtained from [conditions[name]]. *)
Definition conditions_assign (key : string) (v : Z) : M unit :=
  fun w =>
    Some (tt, {| conditions := <[key := v]> (conditions w);
                 source := source w; drawn := drawn w |}).

(** Modelled from the spec: [Random::Int(upper)] (Random.h is not among the
    sources) returns a freshly drawn integer, the next value of the source;
    that the value lies in [0, upper) is the assumption [draws_below]. *)
Definition Random_Int (upper : Z) : M Z :=
  fun w =>
    Some (source w (drawn w),
          {| conditions := conditions w; source := source w;
             drawn := S (drawn w) |}).

(** A call through the function pointer of an expression. *)
Definition call (f : option BinFun) (a b : Z) : M Z :=
  fun w =>
    match f with
    | Some f => Some (f a b, w)
    | None => None
    end.

(** The current value [Test] uses for a condition name. *)
Definition Test_value (key : string) : M Z :=
  if String.eqb key "random" then Random_Int 100
  else
    do it <- conditions_find key;
    match it with
    | Some second => ret second
    | None => ret 0
    end.

(** The body of the first loop of [Test] up to [bool result = ...]. *)
Definition Test_expression (expression : Expression) : M bool :=
  do v <- Test_value (name expression);
  do r <- call (fun_ expression) v (value expression);
  ret (Int.to_bool r).

(** The first loop of [Test]: [Some result] when the loop returned
    [result], [None] when it ran to its end. *)
Fixpoint Test_expressions (isOr : bool) (es : list Expression) : M (option bool) :=
  match es with
  | [] => ret None
  | expression :: es' =>
      do result <- Test_expression expression;
      if Bool.eqb result isOr then ret (Some result)
      else Test_expressions isOr es'
  end.

Fixpoint Test (self : ConditionSet) {struct self} : M bool :=
  do returned <- Test_expressions (isOr self) (expressions self);
  match returned with
  | Some result => ret result
  | None =>
      do returned <-
        (fix each (cs : list ConditionSet) : M (option bool) :=
           match cs with
           | [] => ret None
           | child :: cs' =>
               do result <- Test child;
               if Bool.eqb result (isOr self) then ret (Some result)
               else each cs'
           end) (children self);
      match returned with
      | Some result => ret result
      | None => ret (negb (isOr self))
      end
  end.

(** The body of the loop of [Apply] over the expressions. *)
Definition Apply_expression (expression : Expression) : M unit :=
  do c <- conditions_index (name expression);
  do r <- call (fun_ expression) c (value expression);
  conditions_assign (name expression) r.

Fixpoint Apply_expressions (es : list Expression) : M unit :=
  match es with
  | [] => ret tt
  | expression :: es' =>
      do _ <- Apply_expression expression;
      Apply_expressions es'
  end.

Fixpoint Apply (self : ConditionSet) {struct self} : M unit :=
  do _ <- Apply_expressions (expressions self);
  (fix each (cs : list ConditionSet) : M unit :=
     match cs with
     | [] => ret tt
     | child :: cs' =>
         do _ <- Apply child;
         each cs'
     end) (children self).

(** ** Vocabulary of the properties *)

(** The loops over the children, as they are written inside [Test] and
    [Apply]. *)
Fixpoint Test_children (isOr : bool) (cs : list ConditionSet) : M (option bool) :=
  match cs with
  | [] => ret None
  | child :: cs' =>
      do result <- Test child;
      if Bool.eqb result isOr then ret (Some result)
      else Test_children isOr cs'
  end.

Fixpoint Apply_children (cs : list ConditionSet) : M unit :=
  match cs with
  | [] => ret tt
  | child :: cs' =>
      do _ <- Apply child;
      Apply_children cs'
  end.

(** The loop of [Save] over the children, as it is written inside [Save]. *)
Fixpoint Save_children (cs : list ConditionSet) (out : DataWriter) : DataWriter :=
  match cs with
  | [] => out
  | child :: cs' =>
      let out := Write [if isOr child then "or" else "and"] out in
      let out := BeginChild out in
      let out := Save child out in
      let out := EndChild out in
      Save_children cs' out
  end.

(** The elements of a node in the order [Test] evaluates them: its
    expressions, then its children. *)
Definition elements (self : ConditionSet) : list (M bool) :=
  map Test_expression (expressions self) ++ map Test (children self).

(** Short-circuit evaluation as the specification words it: scan the
    elements, return the first result equal to [isOr], and [!isOr] when
    there is none. *)
Fixpoint short_circuit (isOr : bool) (els : list (M bool)) : M bool :=
  match els with
  | [] => ret (negb isOr)
  | el :: els' =>
      do result <- el;
      if Bool.eqb result isOr then ret result
      else short_circuit isOr els'
  end.

(** [all_pass isOr els w w']: evaluated one after the other from [w], no
    element of [els] has the result [isOr], and the world is [w'] at the
    end. *)
Inductive all_pass (isOr : bool) : list (M bool) -> World -> World -> Prop :=
| all_pass_nil : forall w, all_pass isOr [] w w
| all_pass_cons : forall el els w w1 w2,
    el w = Some (negb isOr, w1) ->
    all_pass isOr els w1 w2 ->
    all_pass isOr (el :: els) w w2.

(** Every expression of a tree, in the order [Apply] reaches them. *)
Fixpoint all_expressions (self : ConditionSet) : list Expression :=
  expressions self ++ flat_map all_expressions (children self).

(** The names the expressions of a tree mention. *)
Definition names (self : ConditionSet) : gset string :=
  list_to_set (map name (all_expressions self)).

(** An expression as the constructor makes it from a token of the table and
    an [int] operand: its function pointer is the one bound to its operator,
    and is not null. *)
Definition bound (e : Expression) : Prop :=
  fun_ e = Op (op e) /\ Op (op e) <> None /\ Int.in_range (value e).

(** A tree of such expressions: what [Load] and [Add] build. *)
Definition well_formed (self : ConditionSet) : Prop :=
  Forall bound (all_expressions self).

(** What one expression of [Apply] does to the map, in the words of the
    specification: read the entry (0 when absent), apply the function,
    write the result back. *)
Definition apply_step (m : gmap string Z) (e : Expression) : gmap string Z :=
  match fun_ e with
  | Some f => <[name e := f (default 0 (m !! name e)) (value e)]> m
  | None => m
  end.

(** The world [w] with another map, and with another number of draws. *)
Definition with_conditions (w : World) (m : gmap string Z) : World :=
  {| conditions := m; source := source w; drawn := drawn w |}.

Definition with_drawn (w : World) (n : nat) : World :=
  {| conditions := conditions w; source := source w; drawn := n |}.

(** The keywords of the unary forms that are recognised by the first
    token. *)
Definition keywords : list string := ["not"; "has"; "set"; "clear"].

(** A line that matches no rule of [Add]: a wrong token count, an
    unrecognized two-token shorthand or an unrecognized operator. *)
Definition malformed (node : DataNode) : Prop :=
  match tokens node with
  | [first] => first <> "never" /\ first <> "and" /\ first <> "or"
  | [first; second] =>
      (first ∉ keywords) /\ second <> "++" /\ second <> "--"
  | [_; operator; _] => Op operator = None
  | _ => True
  end.

(** A line that adds exactly the expression [e]. *)
Definition yields (line : DataNode) (e : Expression) : Prop :=
  forall self sink, Add line self sink = (emplace_back self e, sink).

(** Lines in canonical form: a binary line with an operator of the table, or
    an [and]/[or] line over canonical lines. *)
#[local] Unset Elimination Schemes.
Inductive canonical : DataNode -> Prop :=
| canonical_binary : forall key operator literal below,
    Op operator <> None ->
    canonical (mkDataNode [key; operator; literal] below)
| canonical_group : forall keyword lines,
    keyword = "and" \/ keyword = "or" ->
    Forall canonical lines ->
    canonical (mkDataNode [keyword] lines).
#[local] Set Elimination Schemes.

(** The lines [Save] writes for a tree. *)
Fixpoint Save_lines (self : ConditionSet) : list DataNode :=
  map (fun e => mkDataNode [name e; op e; int_token (value e)] [])
      (expressions self)
  ++ map (fun child =>
            mkDataNode [if isOr child then "or" else "and"] (Save_lines child))
         (children self).

(** Saving a tree with a fresh writer and loading what was written under a
    line with the tokens [header]. *)
Definition reload (header : list string) (self : ConditionSet) : ConditionSet :=
  fst (Load (mkDataNode header (written (Save self DataWriter_new)))
            ConditionSet_new []).

(** Induction over trees and over data nodes, with the hypothesis for all
    the children. *)
Section Induction.

Variable P : ConditionSet -> Prop.
Hypothesis step : forall b es cs, Forall P cs -> P (mkConditionSet b es cs).

Fixpoint ConditionSet_ind (t : ConditionSet) : P t :=
  match t with
  | mkConditionSet b es cs =>
      step b es cs
        ((fix all (cs : list ConditionSet) : Forall P cs :=
            match cs with
            | [] => @List.Forall_nil _ P
            | c :: cs' => @List.Forall_cons _ P c cs' (ConditionSet_ind c) (all cs')
            end) cs)
  end.

Variable Q : DataNode -> Prop.
Hypothesis node_step : forall ts ns, Forall Q ns -> Q (mkDataNode ts ns).

Fixpoint DataNode_ind (n : DataNode) : Q n :=
  match n with
  | mkDataNode ts ns =>
      node_step ts ns
        ((fix all (ns : list DataNode) : Forall Q ns :=
            match ns with
            | [] => @List.Forall_nil _ Q
            | c :: ns' => @List.Forall_cons _ Q c ns' (DataNode_ind c) (all ns')
            end) ns)
  end.

End Induction.

(** The diagnostics already in the sink have no influence on what a line
    adds: they are only extended. *)
Definition sink_extended (node : DataNode) : Prop :=
  forall self sink,
    Add node self sink
    = (fst (Add node self []), sink ++ snd (Add node self [])).

(** Adding the line keeps a well-formed tree well formed. *)
Definition builds_well_formed (node : DataNode) : Prop :=
  forall self sink, well_formed self -> well_formed (fst (Add node self sink)).

(** ** Examples *)

(** A world with the map [m] and an arbitrary random source with draws in
    [0, 100), of which none has been made. *)
Definition world0 (m : gmap string Z) : World :=
  {| conditions := m; source := fun k => Z.of_nat k * 37 mod 100; drawn := 0 |}.

(** An AND-mode node whose second expression is false in the empty map. *)
Definition and_false_tree : ConditionSet :=
  {| isOr := false;
     expressions := [Expression_new "x" "==" 0; Expression_new "y" "!=" 0;
                     Expression_new "random" "<" 50];
     children := [] |}.

(** An AND-mode node that the empty map satisfies, with an OR-mode child. *)
Definition and_true_tree : ConditionSet :=
  {| isOr := false;
     expressions := [Expression_new "x" "==" 0];
     children := [ {| isOr := true;
                      expressions := [Expression_new "y" "!=" 0;
                                      Expression_new "random" "<" 50];
                      children := [] |} ] |}.

(** The tree of [set "gold"] followed by ["gold" "+=" 5]. *)
Definition gold_tree : ConditionSet :=
  fst (Load (mkDataNode ["on"; "offer"]
               [mkDataNode ["set"; "gold"] []; mkDataNode ["gold"; "+="; "5"] []])
            ConditionSet_new []).

(** The tree of the single line [never], and the tree of [set ""]. *)
Definition never_tree : ConditionSet :=
  fst (Load (mkDataNode ["to"; "offer"] [mkDataNode ["never"] []])
            ConditionSet_new []).

Definition set_empty_name_tree : ConditionSet :=
  fst (Load (mkDataNode ["on"; "offer"] [mkDataNode ["set"; ""] []])
            ConditionSet_new []).

(** A block of canonical lines with nested groups. *)
Definition round_trip_block : DataNode :=
  mkDataNode ["to"; "offer"]
    [mkDataNode ["reputation"; ">="; "10"] [];
     mkDataNode ["or"]
       [mkDataNode ["gold"; "<"; "-5"] [];
        mkDataNode ["and"] [mkDataNode ["random"; "<"; "50"] []]];
     mkDataNode ["visits"; "+="; "007"] []].

(** ** Further vocabulary *)

(** The expression a line adds, if it is an expression line: the cases of
    [Add] that end in [expressions.emplace_back]. *)
Definition line_expression (node : DataNode) : option Expression :=
  match tokens node with
  | [first] =>
      if String.eqb first "never" then Some (Expression_new "" "!=" 0) else None
  | [first; second] =>
      if String.eqb first "not" then Some (Expression_new second "==" 0)
      else if String.eqb first "has" then Some (Expression_new second "!=" 0)
      else if String.eqb first "set" then Some (Expression_new second "=" 1)
      else if String.eqb first "clear" then Some (Expression_new second "=" 0)
      else if String.eqb second "++" then Some (Expression_new first "+=" 1)
      else if String.eqb second "--" then Some (Expression_new first "-=" 1)
      else None
  | [key; operator; literal] =>
      match Op operator with
      | Some _ => Some (Expression_new key operator (Int.wrap (token_value literal)))
      | None => None
      end
  | _ => None
  end.

(** A line that opens a nested set. *)
Definition is_group (node : DataNode) : bool :=
  match tokens node with
  | [first] =>
      negb (String.eqb first "never")
      && (String.eqb first "and" || String.eqb first "or")
  | _ => false
  end.

(** The truth value of an expression in a map, for a name that is looked up
    in the map. *)
Definition holds (m : gmap string Z) (e : Expression) : bool :=
  match fun_ e with
  | Some f => Int.to_bool (f (default 0 (m !! name e)) (value e))
  | None => false
  end.

(** The truth value of a tree in a map, read as a formula: the disjunction
    of its members in OR mode, their conjunction in AND mode. *)
Fixpoint satisfied (m : gmap string Z) (self : ConditionSet) : bool :=
  if isOr self
  then existsb (holds m) (expressions self)
       || existsb (satisfied m) (children self)
  else forallb (holds m) (expressions self)
       && forallb (satisfied m) (children self).

(** No expression of the tree asks for a random number. *)
Definition random_free (self : ConditionSet) : Prop :=
  Forall (fun e => name e <> "random") (all_expressions self).

(** The number of expressions of the tree that ask for a random number. *)
Definition random_count (self : ConditionSet) : nat :=
  length (filter (fun e => name e = "random") (all_expressions self)).

(** What the expressions [es] make, one after the other, of the value [v] of
    the condition [key]: only the expressions that name [key] count. *)
Definition key_steps (key : string) (es : list Expression) (v : Z) : Z :=
  fold_left
    (fun v e =>
       if String.eqb (name e) key
       then match fun_ e with Some f => f v (value e) | None => v end
       else v)
    es v.

(** Two worlds with the same random source at the same position and the
    same entries for those of the names [keys] that are looked up in the
    map. *)
Definition agree_on (keys : list string) (w1 w2 : World) : Prop :=
  source w1 = source w2 /\ drawn w1 = drawn w2 /\
  forall key, key ∈ keys -> key <> "random" ->
    conditions w1 !! key = conditions w2 !! key.

(** Two worlds that agree on the names of the expressions of the tree. *)
Definition same_view (self : ConditionSet) (w1 w2 : World) : Prop :=
  agree_on (map name (all_expressions self)) w1 w2.

(** The lines of a block that are rejected, in document order: the lines
    below an [and] or [or] line count, the lines below any other line do
    not. *)
Fixpoint rejected (node : DataNode) : list (list string) :=
  match line_expression node with
  | Some _ => []
  | None =>
      if is_group node then flat_map rejected (nodes node)
      else [tokens node]
  end.

(** The set loaded from a node into a fresh [ConditionSet]. *)
Definition loaded (node : DataNode) : ConditionSet :=
  fst (Load node ConditionSet_new []).

(** A node with one expression. *)
Definition single (b : bool) (e : Expression) : ConditionSet :=
  {| isOr := b; expressions := [e]; children := [] |}.

(** A block with shorthand lines, a [never] line, a nested set and lines that
    are rejected. *)
Definition shorthand_block : DataNode :=
  mkDataNode ["to"; "complete"]
    [mkDataNode ["has"; "license"] [];
     mkDataNode ["never"] [];
     mkDataNode ["bogus"] [];
     mkDataNode ["or"]
       [mkDataNode ["not"; "hostile"] [];
        mkDataNode ["credits"; ">?="; "1000"] [];
        mkDataNode ["a"; "b"; "c"; "d"] []];
     mkDataNode ["visits"; "++"] [];
     mkDataNode ["gold"; "**"; "2"] []].

Arguments Int.wrap : simpl never.

(** * Properties *)

(** ** Machine integers *)

Lemma wrap_in_range z : Int.in_range (Int.wrap z).
Proof.
  unfold Int.in_range, Int.wrap, Int.INT_MIN, Int.INT_MAX.
  pose proof (Z.mod_pos_bound (z + 2 ^ 31) (2 ^ 32) ltac:(lia)). lia.
Qed.

Lemma wrap_id z : Int.in_range z -> Int.wrap z = z.
Proof.
  unfold Int.in_range, Int.wrap, Int.INT_MIN, Int.INT_MAX. intros Hz.
  rewrite Z.mod_small; lia.
Qed.

(** ** The operator table *)

Lemma map_find_None {V : Type} (key : string) (m : list (string * V)) :
  map_find key m = None <-> key ∉ map fst m.
Proof.
  induction m as [|[k v] m IH]; simpl.
  - split; [intros _ H; inversion H | reflexivity].
  - destruct (String.eqb_spec k key) as [->|Hne].
    + split; [discriminate | intros H; exfalso; apply H; left].
    + rewrite IH. split.
      * intros H Hin. apply elem_of_cons in Hin as [Heq|Hin]; [congruence | tauto].
      * intros H Hin. apply H. now right.
Qed.

Lemma Op_None (operator : string) :
  Op operator = None <-> operator ∉ operator_tokens.
Proof. unfold Op. now rewrite map_find_None. Qed.

(** C2: for every operator token and all integers [a] and [b], the function
    the table binds to the token returns the value of the operator table: 1
    or 0 for the six comparisons, [b] for [=], [a + b] for [+=], [a - b] for
    [-=] (the [int] sum and difference, which are the mathematical ones
    whenever those are representable), the minimum for [<?=] and the maximum
    for [>?=]; a token outside the table is not found. *)
Theorem Op_table (a b : Z) :
  Op_apply "==" a b = Some (if decide (a = b) then 1 else 0) /\
  Op_apply "!=" a b = Some (if decide (a <> b) then 1 else 0) /\
  Op_apply "<" a b = Some (if decide (a < b) then 1 else 0) /\
  Op_apply ">" a b = Some (if decide (a > b) then 1 else 0) /\
  Op_apply "<=" a b = Some (if decide (a <= b) then 1 else 0) /\
  Op_apply ">=" a b = Some (if decide (a >= b) then 1 else 0) /\
  Op_apply "=" a b = Some b /\
  Op_apply "+=" a b = Some (Int.wrap (a + b)) /\
  (Int.in_range (a + b) -> Op_apply "+=" a b = Some (a + b)) /\
  Op_apply "-=" a b = Some (Int.wrap (a - b)) /\
  (Int.in_range (a - b) -> Op_apply "-=" a b = Some (a - b)) /\
  Op_apply "<?=" a b = Some (Z.min a b) /\
  Op_apply ">?=" a b = Some (Z.max a b) /\
  (forall operator : string,
     operator ∉ operator_tokens <-> Op operator = None).
Proof.
  repeat match goal with |- _ /\ _ => split end;
    try (unfold Op_apply, Op, opMap;
         cbn [map_find String.eqb Ascii.eqb Bool.eqb];
         unfold Int.of_bool, Int.add, Int.sub, Int.min, Int.max).
  - f_equal. case_decide; [apply Z.eqb_eq in H | apply Z.eqb_neq in H]; now rewrite H.
  - f_equal. destruct (Z.eqb_spec a b); case_decide; simpl; congruence.
  - f_equal. destruct (Z.ltb_spec a b); case_decide; lia.
  - f_equal. rewrite Z.gtb_ltb. destruct (Z.ltb_spec b a); case_decide; lia.
  - f_equal. destruct (Z.leb_spec a b); case_decide; lia.
  - f_equal. rewrite Z.geb_leb. destruct (Z.leb_spec b a); case_decide; lia.
  - reflexivity.
  - reflexivity.
  - intros H. now rewrite wrap_id.
  - reflexivity.
  - intros H. now rewrite wrap_id.
  - f_equal. destruct (Z.ltb_spec b a); lia.
  - f_equal. destruct (Z.ltb_spec a b); lia.
  - intros operator. symmetry. change (map_find operator _) with (Op operator).
    apply Op_None.
Qed.

Lemma Op_table_witness :
  Int.in_range (5 + 3) /\ Op_apply "+=" 5 3 = Some 8 /\
  Int.in_range (5 - 3) /\ Op_apply "-=" 5 3 = Some 2 /\
  Op_apply "<?=" 5 3 = Some 3 /\ Op_apply ">?=" 5 3 = Some 5 /\
  Op "?=" = None.
Proof.
  assert (Hadd : Int.in_range (5 + 3)) by (unfold Int.in_range, Int.INT_MIN, Int.INT_MAX; lia).
  assert (Hsub : Int.in_range (5 - 3)) by (unfold Int.in_range, Int.INT_MIN, Int.INT_MAX; lia).
  destruct (Op_table 5 3)
    as (_ & _ & _ & _ & _ & _ & _ & _ & Hp & _ & Hm & Hmin & Hmax & Hnone).
  split; [exact Hadd|]. split; [exact (Hp Hadd)|].
  split; [exact Hsub|]. split; [exact (Hm Hsub)|].
  split; [exact Hmin|]. split; [exact Hmax|].
  apply Hnone. unfold operator_tokens. intros Hin.
  repeat (apply elem_of_cons in Hin as [Heq|Hin]; [discriminate Heq|]).
  inversion Hin.
Defined.

(** ** [Test]: the loops and the short-circuit rule *)

Lemma bind_eq {A B : Type} (c : M A) (k : A -> M B) (w : World) :
  bind c k w = match c w with Some (a, w') => k a w' | None => None end.
Proof. reflexivity. Qed.

Lemma Test_each_children (b : bool) (cs : list ConditionSet) (w : World) :
  (fix each (cs : list ConditionSet) : M (option bool) :=
     match cs with
     | [] => ret None
     | child :: cs' =>
         do result <- Test child;
         if Bool.eqb result b then ret (Some result) else each cs'
     end) cs w = Test_children b cs w.
Proof.
  revert w. induction cs as [|c cs IH]; intros w; [reflexivity|].
  cbn [Test_children]. rewrite !bind_eq.
  destruct (Test c w) as [[r w']|]; [|reflexivity].
  destruct (Bool.eqb r b); [reflexivity | apply IH].
Qed.

(** [Test] unfolded once, with its second loop named. *)
Lemma Test_unfold (self : ConditionSet) (w : World) :
  Test self w =
  (do returned <- Test_expressions (isOr self) (expressions self);
   match returned with
   | Some result => ret result
   | None =>
       do returned <- Test_children (isOr self) (children self);
       match returned with
       | Some result => ret result
       | None => ret (negb (isOr self))
       end
   end) w.
Proof.
  destruct self as [b es cs]. cbn [Test isOr expressions children].
  rewrite !bind_eq.
  destruct (Test_expressions b es w) as [[[r|] w']|]; try reflexivity.
  rewrite !bind_eq. now rewrite Test_each_children.
Qed.

Lemma short_circuit_app (b : bool) (els els' : list (M bool)) (w : World) :
  short_circuit b (els ++ els') w =
  match short_circuit b els w with
  | Some (r, w') => if Bool.eqb r b then Some (r, w') else short_circuit b els' w'
  | None => None
  end.
Proof.
  revert w. induction els as [|el els IH]; intros w.
  - cbn. unfold ret. now destruct b.
  - cbn [app short_circuit]. rewrite !bind_eq.
    destruct (el w) as [[r w']|]; [|reflexivity].
    destruct (Bool.eqb r b) eqn:E; [|apply IH].
    unfold ret. now rewrite E.
Qed.

Lemma Test_expressions_short_circuit (b : bool) (es : list Expression) (w : World) :
  short_circuit b (map Test_expression es) w =
  match Test_expressions b es w with
  | Some (Some r, w') => Some (r, w')
  | Some (None, w') => Some (negb b, w')
  | None => None
  end.
Proof.
  revert w. induction es as [|e es IH]; intros w; [reflexivity|].
  cbn [map short_circuit Test_expressions]. rewrite !bind_eq.
  destruct (Test_expression e w) as [[r w']|]; [|reflexivity].
  destruct (Bool.eqb r b); [reflexivity | apply IH].
Qed.

Lemma Test_children_short_circuit (b : bool) (cs : list ConditionSet) (w : World) :
  short_circuit b (map Test cs) w =
  match Test_children b cs w with
  | Some (Some r, w') => Some (r, w')
  | Some (None, w') => Some (negb b, w')
  | None => None
  end.
Proof.
  revert w. induction cs as [|c cs IH]; intros w; [reflexivity|].
  cbn [map short_circuit Test_children]. rewrite !bind_eq.
  destruct (Test c w) as [[r w']|]; [|reflexivity].
  destruct (Bool.eqb r b); [reflexivity | apply IH].
Qed.

Lemma Test_expressions_result (b : bool) (es : list Expression) (w w' : World) (r : bool) :
  Test_expressions b es w = Some (Some r, w') -> r = b.
Proof.
  revert w. induction es as [|e es IH]; intros w; [discriminate|].
  cbn [Test_expressions]. rewrite bind_eq.
  destruct (Test_expression e w) as [[r0 w0]|]; [|discriminate].
  destruct (Bool.eqb r0 b) eqn:E; [|apply IH].
  unfold ret. intros [= <- <-]. now apply Bool.eqb_prop.
Qed.

(** [Test] is the short-circuit scan of the elements of the node. *)
Lemma Test_is_scan (self : ConditionSet) (w : World) :
  Test self w = short_circuit (isOr self) (elements self) w.
Proof.
  rewrite Test_unfold. unfold elements.
  rewrite short_circuit_app, Test_expressions_short_circuit, bind_eq.
  destruct (Test_expressions (isOr self) (expressions self) w)
    as [[[r|] w']|] eqn:E; [| |reflexivity].
  - apply Test_expressions_result in E. subst r.
    unfold ret. now rewrite Bool.eqb_reflx.
  - replace (Bool.eqb (negb (isOr self)) (isOr self)) with false
      by now destruct (isOr self).
    rewrite Test_children_short_circuit, bind_eq.
    now destruct (Test_children (isOr self) (children self) w') as [[[r|] w'']|].
Qed.

Lemma short_circuit_all_pass (b : bool) (els : list (M bool)) (w w' : World) :
  all_pass b els w w' -> short_circuit b els w = Some (negb b, w').
Proof.
  induction 1 as [w|el els w w1 w2 Hel _ IH]; [reflexivity|].
  cbn [short_circuit]. rewrite bind_eq, Hel.
  now replace (Bool.eqb (negb b) b) with false by now destruct b.
Qed.

Lemma short_circuit_stop (b : bool) (before after : list (M bool)) (el : M bool)
    (w w1 w2 : World) :
  all_pass b before w w1 ->
  el w1 = Some (b, w2) ->
  short_circuit b (before ++ el :: after) w = Some (b, w2).
Proof.
  intros Hpass Hel. rewrite short_circuit_app.
  rewrite (short_circuit_all_pass _ _ _ _ Hpass).
  replace (Bool.eqb (negb b) b) with false by now destruct b.
  cbn [short_circuit]. rewrite bind_eq, Hel.
  now rewrite Bool.eqb_reflx.
Qed.

(** C1: [Test] evaluates the expressions of the node in order and then its
    children in order.  The first element whose result equals [isOr] ends the
    scan: [Test] returns that result in the world that element left, so that
    nothing after it is evaluated.  When no element has the result [isOr],
    [Test] returns [!isOr]; a node without expressions and children returns
    [!isOr] in every world (true in AND mode, false in OR mode). *)
Theorem Test_short_circuits (self : ConditionSet) (w : World) :
  (forall before el after w1 w2,
     elements self = before ++ el :: after ->
     all_pass (isOr self) before w w1 ->
     el w1 = Some (isOr self, w2) ->
     Test self w = Some (isOr self, w2)) /\
  (forall w',
     all_pass (isOr self) (elements self) w w' ->
     Test self w = Some (negb (isOr self), w')) /\
  (IsEmpty self = true -> Test self w = Some (negb (isOr self), w)).
Proof.
  repeat split.
  - intros before el after w1 w2 Hels Hpass Hel.
    rewrite Test_is_scan, Hels.
    now apply short_circuit_stop with (w1 := w1).
  - intros w' Hpass. rewrite Test_is_scan.
    now apply short_circuit_all_pass.
  - intros Hempty. rewrite Test_is_scan. unfold elements.
    destruct self as [b [|e es] [|c cs]]; try discriminate Hempty.
    reflexivity.
Qed.

Lemma Test_short_circuits_witness :
  Test and_false_tree (world0 ∅) = Some (false, world0 ∅) /\
  Test and_true_tree (world0 ∅) = Some (true, with_drawn (world0 ∅) 1) /\
  Test ConditionSet_new (world0 ∅) = Some (true, world0 ∅).
Proof.
  split; [|split].
  - apply (proj1 (Test_short_circuits and_false_tree (world0 ∅))
             [Test_expression (Expression_new "x" "==" 0)]
             (Test_expression (Expression_new "y" "!=" 0))
             [Test_expression (Expression_new "random" "<" 50)]
             (world0 ∅) (world0 ∅)).
    + reflexivity.
    + eapply all_pass_cons; [vm_compute; reflexivity | apply all_pass_nil].
    + vm_compute; reflexivity.
  - apply (proj1 (proj2 (Test_short_circuits and_true_tree (world0 ∅)))).
    eapply all_pass_cons; [vm_compute; reflexivity|].
    eapply all_pass_cons; [vm_compute; reflexivity|].
    apply all_pass_nil.
  - apply (proj2 (proj2 (Test_short_circuits ConditionSet_new (world0 ∅)))).
    reflexivity.
Defined.

(** ** [Test]: values, totality and the frame *)

Lemma Test_value_random (w : World) :
  Test_value "random" w = Some (source w (drawn w), with_drawn w (S (drawn w))).
Proof. reflexivity. Qed.

Lemma Test_value_other (key : string) (w : World) :
  key <> "random" ->
  Test_value key w = Some (default 0 (conditions w !! key), w).
Proof.
  intros Hkey. unfold Test_value.
  destruct (String.eqb_spec key "random") as [->|_]; [congruence|].
  rewrite bind_eq. unfold conditions_find.
  now destruct (conditions w !! key).
Qed.

Lemma Test_value_frame (key : string) (w w' : World) (v : Z) :
  Test_value key w = Some (v, w') ->
  conditions w' = conditions w /\ source w' = source w.
Proof.
  destruct (decide (key = "random")) as [->|Hkey].
  - rewrite Test_value_random. now intros [= _ <-].
  - rewrite Test_value_other by assumption. now intros [= _ <-].
Qed.

Lemma Test_value_total (key : string) (w : World) : is_Some (Test_value key w).
Proof.
  destruct (decide (key = "random")) as [->|Hkey].
  - now rewrite Test_value_random.
  - now rewrite Test_value_other.
Qed.

Lemma Test_expression_eq (e : Expression) (w : World) :
  Test_expression e w =
  match Test_value (name e) w, fun_ e with
  | Some (v, w'), Some f => Some (Int.to_bool (f v (value e)), w')
  | _, _ => None
  end.
Proof.
  unfold Test_expression. rewrite bind_eq.
  destruct (Test_value (name e) w) as [[v w']|]; [|reflexivity].
  rewrite bind_eq. unfold call. now destruct (fun_ e).
Qed.

Lemma Test_expression_frame (e : Expression) (w w' : World) (r : bool) :
  Test_expression e w = Some (r, w') ->
  conditions w' = conditions w /\ source w' = source w.
Proof.
  rewrite Test_expression_eq.
  destruct (Test_value (name e) w) as [[v w1]|] eqn:E; [|discriminate].
  destruct (fun_ e); [|discriminate].
  intros [= _ <-]. now apply Test_value_frame in E.
Qed.

Lemma Test_expression_total (e : Expression) (w : World) :
  bound e -> is_Some (Test_expression e w).
Proof.
  intros (Hfun & Hop & _). rewrite Test_expression_eq.
  destruct (Test_value_total (name e) w) as [[v w'] ->].
  rewrite Hfun. now destruct (Op (op e)).
Qed.

Lemma Test_expressions_frame (b : bool) (es : list Expression) (w w' : World)
    (r : option bool) :
  Test_expressions b es w = Some (r, w') ->
  conditions w' = conditions w /\ source w' = source w.
Proof.
  revert w. induction es as [|e es IH]; intros w.
  - now intros [= _ <-].
  - cbn [Test_expressions]. rewrite bind_eq.
    destruct (Test_expression e w) as [[r0 w0]|] eqn:E; [|discriminate].
    apply Test_expression_frame in E as [Ec Es].
    destruct (Bool.eqb r0 b).
    + intros [= _ <-]. now split.
    + intros H. apply IH in H as [-> ->]. now split.
Qed.

Lemma Test_expressions_total (b : bool) (es : list Expression) (w : World) :
  Forall bound es -> is_Some (Test_expressions b es w).
Proof.
  intros Hes. revert w. induction Hes as [|e es He _ IH]; intros w; [done|].
  cbn [Test_expressions]. rewrite bind_eq.
  destruct (Test_expression_total e w He) as [[r w'] ->].
  destruct (Bool.eqb r b); [done | apply IH].
Qed.

Lemma well_formed_node (b : bool) (es : list Expression) (cs : list ConditionSet) :
  well_formed (mkConditionSet b es cs) <-> Forall bound es /\ Forall well_formed cs.
Proof.
  unfold well_formed. cbn [all_expressions expressions children].
  rewrite Forall_app. apply and_iff_compat_l.
  induction cs as [|c cs IH]; cbn [flat_map].
  - split; intros; constructor.
  - rewrite Forall_app, IH, Forall_cons. reflexivity.
Qed.

Lemma Test_frame (self : ConditionSet) :
  forall (w w' : World) (r : bool),
    Test self w = Some (r, w') ->
    conditions w' = conditions w /\ source w' = source w.
Proof.
  induction self as [b es cs IH] using ConditionSet_ind. intros w w' r.
  rewrite Test_unfold. cbn [isOr expressions children]. rewrite bind_eq.
  destruct (Test_expressions b es w) as [[[r0|] w0]|] eqn:E; [| |discriminate];
    apply Test_expressions_frame in E as [Ec Es].
  - intros [= _ <-]. now split.
  - rewrite bind_eq.
    assert (Hcs : forall w1 w2 r1,
               Test_children b cs w1 = Some (r1, w2) ->
               conditions w2 = conditions w1 /\ source w2 = source w1).
    { clear -IH. induction IH as [|c cs Hc _ IHcs]; intros w1 w2 r1.
      - now intros [= _ <-].
      - cbn [Test_children]. rewrite bind_eq.
        destruct (Test c w1) as [[r w]|] eqn:E; [|discriminate].
        apply Hc in E as [Ec Es].
        destruct (Bool.eqb r b).
        + intros [= _ <-]. now split.
        + intros H. apply IHcs in H as [-> ->]. now split. }
    destruct (Test_children b cs w0) as [[r1 w1]|] eqn:E1; [|discriminate].
    apply Hcs in E1 as [Ec1 Es1].
    destruct r1; intros [= _ <-]; split; congruence.
Qed.

Lemma Test_total (self : ConditionSet) :
  well_formed self -> forall w : World, is_Some (Test self w).
Proof.
  induction self as [b es cs IH] using ConditionSet_ind.
  rewrite well_formed_node. intros [Hes Hcs] w.
  rewrite Test_unfold. cbn [isOr expressions children]. rewrite bind_eq.
  destruct (Test_expressions_total b es w Hes) as [[[r0|] w0] ->]; [done|].
  rewrite bind_eq.
  assert (Hall : forall w1, is_Some (Test_children b cs w1)).
  { clear -IH Hcs. induction IH as [|c cs Hc _ IHcs]; intros w1; [done|].
    apply Forall_cons in Hcs as [Hwf Hcs].
    cbn [Test_children]. rewrite bind_eq.
    destruct (Hc Hwf w1) as [[r w] ->].
    destruct (Bool.eqb r b); [done | now apply IHcs]. }
  destruct (Hall w0) as [[[r1|] w1] ->]; done.
Qed.

Lemma world0_draws (m : gmap string Z) : draws_below 100 (world0 m).
Proof. intros k. cbn [world0 source]. apply Z.mod_pos_bound. lia. Qed.

Lemma well_formed_and_true_tree : well_formed and_true_tree.
Proof. unfold well_formed, bound. repeat constructor; discriminate. Qed.

Lemma well_formed_gold_tree : well_formed gold_tree.
Proof. unfold well_formed, bound. repeat constructor; discriminate. Qed.

(** C4: [Test] leaves the caller's map as it found it, whatever the tree,
    and on a tree with bound functions it does return.  A name other than
    ["random"] is resolved to its entry, 0 when it has none, without touching
    the world; ["random"] is resolved to the next draw of the random source,
    which lies in [0, 100) when the draws of the source do. *)
Theorem Test_reads_only (self : ConditionSet) (w : World) :
  (forall r w', Test self w = Some (r, w') -> conditions w' = conditions w) /\
  (well_formed self ->
   exists r w', Test self w = Some (r, w') /\ conditions w' = conditions w) /\
  (forall key, key <> "random" -> conditions w !! key = None ->
     Test_value key w = Some (0, w)) /\
  (forall key v, key <> "random" -> conditions w !! key = Some v ->
     Test_value key w = Some (v, w)) /\
  (draws_below 100 w ->
   exists v, Test_value "random" w = Some (v, with_drawn w (S (drawn w))) /\
             0 <= v < 100).
Proof.
  repeat split.
  - intros r w' H. now apply Test_frame in H.
  - intros Hwf. destruct (Test_total self Hwf w) as [[r w'] H].
    exists r, w'. split; [assumption|]. now apply Test_frame in H.
  - intros key Hkey Hnone. rewrite Test_value_other by assumption.
    now rewrite Hnone.
  - intros key v Hkey Hsome. rewrite Test_value_other by assumption.
    now rewrite Hsome.
  - intros Hdraws. exists (source w (drawn w)). split; [reflexivity | apply Hdraws].
Qed.

Lemma Test_reads_only_witness :
  (exists r w', Test and_true_tree (world0 {["x" := 4]}) = Some (r, w') /\
                conditions w' = {["x" := 4]}) /\
  Test_value "y" (world0 {["x" := 4]}) = Some (0, world0 {["x" := 4]}) /\
  Test_value "x" (world0 {["x" := 4]}) = Some (4, world0 {["x" := 4]}) /\
  (exists v, Test_value "random" (world0 {["x" := 4]})
             = Some (v, with_drawn (world0 {["x" := 4]}) 1) /\ 0 <= v < 100).
Proof.
  destruct (Test_reads_only and_true_tree (world0 {["x" := 4]}))
    as (_ & Htotal & Habsent & Hpresent & Hrandom).
  split; [exact (Htotal well_formed_and_true_tree)|].
  split; [apply Habsent; [discriminate | reflexivity]|].
  split; [apply Hpresent; [discriminate | reflexivity]|].
  exact (Hrandom (world0_draws _)).
Defined.

Lemma Test_single (b : bool) (e : Expression) (w w' : World) (r : bool) :
  Test_expression e w = Some (r, w') ->
  Test {| isOr := b; expressions := [e]; children := [] |} w = Some (r, w').
Proof.
  intros H. rewrite Test_unfold.
  cbn [isOr expressions children Test_expressions Test_children].
  rewrite !bind_eq, H. now destruct r, b.
Qed.

(** C9: whatever the map and whatever the draws of the random source, as long
    as they lie in [0, 100), [Test] on the single expression
    [("random", "<", 100)] is true and on [("random", "<", 0)] it is false,
    in AND mode and in OR mode alike; each consumes one draw. *)
Theorem Test_random (b : bool) (w : World) :
  draws_below 100 w ->
  Test {| isOr := b; expressions := [Expression_new "random" "<" 100];
          children := [] |} w
    = Some (true, with_drawn w (S (drawn w))) /\
  Test {| isOr := b; expressions := [Expression_new "random" "<" 0];
          children := [] |} w
    = Some (false, with_drawn w (S (drawn w))).
Proof.
  intros Hdraws. specialize (Hdraws (drawn w)).
  split; apply Test_single; rewrite Test_expression_eq;
    cbn [name fun_ value Expression_new]; rewrite Test_value_random;
    change (Op "<") with (Some (fun a b : Z => Int.of_bool (a <? b)));
    cbv beta; do 2 f_equal.
  - rewrite (proj2 (Z.ltb_lt _ _)) by lia. reflexivity.
  - rewrite (proj2 (Z.ltb_ge _ _)) by lia. reflexivity.
Qed.

Lemma Test_random_witness :
  Test {| isOr := true; expressions := [Expression_new "random" "<" 100];
          children := [] |} (world0 ∅)
    = Some (true, with_drawn (world0 ∅) 1) /\
  Test {| isOr := true; expressions := [Expression_new "random" "<" 0];
          children := [] |} (world0 ∅)
    = Some (false, with_drawn (world0 ∅) 1).
Proof. exact (Test_random true (world0 ∅) (world0_draws ∅)). Defined.

(** ** The [never] line *)

Lemma Test_never (w : World) :
  default 0 (conditions w !! "") = 0 ->
  Test_expression (Expression_new "" "!=" 0) w = Some (false, w).
Proof.
  intros Hzero. rewrite Test_expression_eq.
  cbn [name fun_ value Expression_new].
  rewrite Test_value_other by discriminate. rewrite Hzero. reflexivity.
Qed.

Lemma Test_expressions_never (es : list Expression) (w : World) :
  Expression_new "" "!=" 0 ∈ es ->
  Forall bound es ->
  default 0 (conditions w !! "") = 0 ->
  exists w', Test_expressions false es w = Some (Some false, w') /\
             conditions w' = conditions w.
Proof.
  intros Hin Hes. revert w Hin.
  induction Hes as [|e es He _ IH]; intros w Hin Hzero.
  - inversion Hin.
  - cbn [Test_expressions]. rewrite bind_eq.
    apply elem_of_cons in Hin as [<-|Hin].
    + rewrite Test_never by assumption. now exists w.
    + destruct (Test_expression_total e w He) as [[r w1] Hr]. rewrite Hr.
      apply Test_expression_frame in Hr as [Hc _].
      destruct r; cbn [Bool.eqb].
      * destruct (IH w1 Hin) as (w' & Hw' & Hc'); [now rewrite Hc|].
        exists w'. split; [assumption | congruence].
      * now exists w1.
Qed.

(** C5, as amended: a one-token line ["never"] appends the expression
    [("", "!=", 0)].  In every world whose map has no entry for the empty
    name, or the entry 0, that expression evaluates to false, and an AND-mode
    node with bound expressions that has it among them tests false without
    changing the map. *)
Theorem never_is_false :
  (forall below self sink,
     Add (mkDataNode ["never"] below) self sink
     = (emplace_back self (Expression_new "" "!=" 0), sink)) /\
  (forall w,
     conditions w !! "" = None \/ conditions w !! "" = Some 0 ->
     Test_expression (Expression_new "" "!=" 0) w = Some (false, w)) /\
  (forall self w,
     isOr self = false ->
     Expression_new "" "!=" 0 ∈ expressions self ->
     Forall bound (expressions self) ->
     conditions w !! "" = None \/ conditions w !! "" = Some 0 ->
     exists w', Test self w = Some (false, w') /\ conditions w' = conditions w).
Proof.
  repeat split.
  - intros w H. apply Test_never. now destruct H as [-> | ->].
  - intros self w Hand Hin Hes H.
    destruct (Test_expressions_never (expressions self) w Hin Hes)
      as (w' & Hw' & Hc); [now destruct H as [-> | ->]|].
    exists w'. split; [|assumption].
    rewrite Test_unfold, bind_eq, Hand, Hw'. reflexivity.
Qed.

Lemma never_is_false_witness :
  Test_expression (Expression_new "" "!=" 0) (world0 {["gold" := 2]})
    = Some (false, world0 {["gold" := 2]}) /\
  (exists w', Test never_tree (world0 {["" := 0]}) = Some (false, w') /\
              conditions w' = {["" := 0]}).
Proof.
  destruct never_is_false as (_ & Hexpression & Htree).
  split.
  - apply Hexpression. left. reflexivity.
  - apply Htree.
    + reflexivity.
    + apply list_elem_of_here.
    + unfold bound, Int.in_range, Int.INT_MIN, Int.INT_MAX.
      repeat constructor; cbn; (discriminate || lia).
    + right. reflexivity.
Defined.

(** C5 does not hold for every map: once the map has a non-zero entry under
    the empty name, which [Apply] of [set ""] creates, the [never]
    expression is true and the tree of the single line [never] tests true. *)
Lemma never_counterexample :
  isOr never_tree = false /\
  expressions never_tree = [Expression_new "" "!=" 0] /\
  Apply set_empty_name_tree (world0 ∅) = Some (tt, world0 {["" := 1]}) /\
  Test_expression (Expression_new "" "!=" 0) (world0 {["" := 1]})
    = Some (true, world0 {["" := 1]}) /\
  Test never_tree (world0 {["" := 1]}) = Some (true, world0 {["" := 1]}).
Proof. repeat split; vm_compute; reflexivity. Qed.

(** ** [Apply] *)

Lemma Apply_each_children (cs : list ConditionSet) (w : World) :
  (fix each (cs : list ConditionSet) : M unit :=
     match cs with
     | [] => ret tt
     | child :: cs' => do _ <- Apply child; each cs'
     end) cs w = Apply_children cs w.
Proof.
  revert w. induction cs as [|c cs IH]; intros w; [reflexivity|].
  cbn [Apply_children]. rewrite !bind_eq.
  destruct (Apply c w) as [[[] w']|]; [apply IH | reflexivity].
Qed.

Lemma Apply_unfold (self : ConditionSet) (w : World) :
  Apply self w =
  (do _ <- Apply_expressions (expressions self);
   Apply_children (children self)) w.
Proof.
  destruct self as [b es cs]. cbn [Apply isOr expressions children].
  rewrite !bind_eq.
  destruct (Apply_expressions es w) as [[[] w']|]; [|reflexivity].
  apply Apply_each_children.
Qed.

Lemma with_conditions_id (w : World) : with_conditions w (conditions w) = w.
Proof. now destruct w. Qed.

Lemma with_conditions_twice (w : World) (m m' : gmap string Z) :
  with_conditions (with_conditions w m) m' = with_conditions w m'.
Proof. reflexivity. Qed.

(** Reading through [conditions[name]] and assigning through the reference
    amount to one update of the map. *)
Lemma Apply_expression_eq (e : Expression) (w : World) :
  Apply_expression e w =
  match fun_ e with
  | Some _ => Some (tt, with_conditions w (apply_step (conditions w) e))
  | None => None
  end.
Proof.
  unfold Apply_expression, apply_step. rewrite bind_eq.
  unfold conditions_index.
  destruct (conditions w !! name e) as [v|] eqn:E; rewrite bind_eq; unfold call;
    destruct (fun_ e) as [f|]; try reflexivity.
  unfold conditions_assign, with_conditions. cbn [conditions source drawn default].
  now rewrite insert_insert_eq.
Qed.

Lemma Apply_expressions_eq (es : list Expression) (w : World) :
  Forall bound es ->
  Apply_expressions es w
  = Some (tt, with_conditions w (fold_left apply_step es (conditions w))).
Proof.
  intros Hes. revert w. induction Hes as [|e es He _ IH]; intros w.
  - cbn. unfold ret. now rewrite with_conditions_id.
  - cbn [Apply_expressions fold_left]. rewrite bind_eq, Apply_expression_eq.
    destruct He as (Hfun & Hop & _).
    destruct (fun_ e) as [f|] eqn:Ef; [|congruence].
    rewrite IH. reflexivity.
Qed.

Lemma Apply_eq (self : ConditionSet) :
  well_formed self ->
  forall w : World,
    Apply self w
    = Some (tt, with_conditions w
                  (fold_left apply_step (all_expressions self) (conditions w))).
Proof.
  induction self as [b es cs IH] using ConditionSet_ind.
  rewrite well_formed_node. intros [Hes Hcs] w.
  rewrite Apply_unfold. cbn [expressions children all_expressions].
  rewrite bind_eq, Apply_expressions_eq by assumption.
  rewrite fold_left_app.
  generalize (fold_left apply_step es (conditions w)). intros m.
  change (Apply_children cs (with_conditions w m)
          = Some (tt, with_conditions (with_conditions w m)
                        (fold_left apply_step (flat_map all_expressions cs)
                           (conditions (with_conditions w m))))).
  generalize (with_conditions w m). clear -IH Hcs.
  induction IH as [|c cs Hc _ IHcs]; intros w.
  - cbn. unfold ret. now rewrite with_conditions_id.
  - apply Forall_cons in Hcs as [Hwf Hcs].
    cbn [Apply_children flat_map]. rewrite bind_eq, (Hc Hwf).
    rewrite (IHcs Hcs), fold_left_app. reflexivity.
Qed.

Lemma apply_step_lookup_ne (m : gmap string Z) (e : Expression) (k : string) :
  k <> name e -> apply_step m e !! k = m !! k.
Proof.
  intros Hk. unfold apply_step. destruct (fun_ e); [|reflexivity].
  now rewrite lookup_insert_ne.
Qed.

Lemma apply_step_dom (m : gmap string Z) (e : Expression) :
  bound e -> dom (apply_step m e) = dom m ∪ {[name e]}.
Proof.
  intros (Hfun & Hop & _). unfold apply_step.
  destruct (fun_ e); [|congruence].
  rewrite dom_insert_L. set_solver.
Qed.

Lemma fold_apply_step_lookup (es : list Expression) (m : gmap string Z) (k : string) :
  k ∉ map name es -> fold_left apply_step es m !! k = m !! k.
Proof.
  revert m. induction es as [|e es IH]; intros m Hk; [reflexivity|].
  cbn [fold_left]. cbn [map] in Hk. apply not_elem_of_cons in Hk as [Hne Hk].
  rewrite IH by assumption. now apply apply_step_lookup_ne.
Qed.

Lemma fold_apply_step_dom (es : list Expression) (m : gmap string Z) :
  Forall bound es ->
  dom (fold_left apply_step es m) = dom m ∪ list_to_set (map name es).
Proof.
  intros Hes. revert m. induction Hes as [|e es He _ IH]; intros m.
  - cbn. set_solver.
  - cbn [fold_left map list_to_set]. rewrite IH, apply_step_dom by assumption.
    set_solver.
Qed.

(** C3, as amended: on a tree with bound functions [Apply] handles every
    expression of the node in order and then every expression of every
    child, in order and whatever the combinators; for each it reads the
    entry of the name (0 when absent), applies the function to it and the
    operand, and stores the result under the name.  From the empty map the
    tree of [set "gold"] followed by ["gold" "+=" 5] leaves 6 under
    ["gold"]. *)
Theorem Apply_in_order :
  (forall self w,
     well_formed self ->
     Apply self w
     = Some (tt, with_conditions w
                   (fold_left apply_step (all_expressions self) (conditions w)))) /\
  (forall e f m,
     fun_ e = Some f ->
     apply_step m e = <[name e := f (default 0 (m !! name e)) (value e)]> m) /\
  (forall w, conditions w = ∅ ->
     exists w', Apply gold_tree w = Some (tt, w') /\
                conditions w' !! "gold" = Some 6).
Proof.
  split; [|split].
  - intros self w Hwf. now apply Apply_eq.
  - intros e f m Hf. unfold apply_step. now rewrite Hf.
  - intros w Hw. eexists. split.
    + apply Apply_eq. unfold well_formed, bound.
      repeat constructor; discriminate.
    + rewrite Hw. reflexivity.
Qed.

Lemma Apply_in_order_witness :
  Apply gold_tree (world0 ∅)
    = Some (tt, with_conditions (world0 ∅)
                  (fold_left apply_step (all_expressions gold_tree) ∅)) /\
  (exists w', Apply gold_tree (world0 ∅) = Some (tt, w') /\
              conditions w' !! "gold" = Some 6).
Proof.
  destruct Apply_in_order as (Hall & _ & Hgold).
  split.
  - exact (Hall gold_tree (world0 ∅) well_formed_gold_tree).
  - apply Hgold. reflexivity.
Defined.

(** C3 does not hold with the value 5: the tree of [set "gold"] and
    ["gold" "+=" 5] leaves 6 under ["gold"], since [set] stores 1 before 5 is
    added. *)
Lemma Apply_gold_counterexample :
  map (fun e => (name e, op e, value e)) (expressions gold_tree)
    = [("gold", "=", 1); ("gold", "+=", 5)] /\
  exists w', Apply gold_tree (world0 ∅) = Some (tt, w') /\
             conditions w' !! "gold" = Some 6 /\
             conditions w' !! "gold" <> Some 5.
Proof.
  split; [reflexivity|].
  exists (world0 {["gold" := 6]}).
  split; [vm_compute; reflexivity|].
  split; [reflexivity | discriminate].
Qed.

(** C10: on a tree with bound functions [Apply] returns; an entry whose key
    no expression of the tree names is as before, absent or with its value;
    no key is removed, and the keys of the map afterwards are those it had
    together with the names of the expressions of the tree.  The random
    source is not consulted. *)
Theorem Apply_frame (self : ConditionSet) (w : World) :
  well_formed self ->
  exists w',
    Apply self w = Some (tt, w') /\
    (forall key, key ∉ names self -> conditions w' !! key = conditions w !! key) /\
    dom (conditions w) ⊆ dom (conditions w') /\
    dom (conditions w') ∖ dom (conditions w) = names self ∖ dom (conditions w) /\
    source w' = source w /\ drawn w' = drawn w.
Proof.
  intros Hwf. eexists. split; [now apply Apply_eq|].
  cbn [with_conditions conditions source drawn].
  rewrite fold_apply_step_dom by assumption.
  fold (names self).
  repeat split.
  - intros key Hkey. apply fold_apply_step_lookup.
    unfold names in Hkey. now rewrite elem_of_list_to_set in Hkey.
  - set_solver.
  - set_solver.
Qed.

Lemma Apply_frame_witness :
  exists w',
    Apply gold_tree (world0 {["silver" := 3]}) = Some (tt, w') /\
    (forall key, key ∉ names gold_tree ->
       conditions w' !! key = ({["silver" := 3]} : gmap string Z) !! key) /\
    dom ({["silver" := 3]} : gmap string Z) ⊆ dom (conditions w') /\
    dom (conditions w') ∖ dom ({["silver" := 3]} : gmap string Z)
      = names gold_tree ∖ dom ({["silver" := 3]} : gmap string Z) /\
    source w' = source (world0 {["silver" := 3]}) /\
    drawn w' = drawn (world0 {["silver" := 3]}).
Proof.
  exact (Apply_frame gold_tree (world0 {["silver" := 3]}) well_formed_gold_tree).
Defined.

(** ** Construction *)

(** [Add] unfolded once, with the nested [Load] named. *)
Lemma Add_unfold (node : DataNode) (self : ConditionSet) (sink : Diagnostics) :
  Add node self sink =
  if Size node =? 2 then
    let (ok, self') := Add_unary (Token node 0) (Token node 1) self in
    if negb ok then (self', PrintTrace node unrecognized sink)
    else (self', sink)
  else if Size node =? 3 then
    let (ok, self') :=
      Add_binary (Token node 0) (Token node 1) (Int.wrap (Value node 2)) self in
    if negb ok then (self', PrintTrace node unrecognized sink)
    else (self', sink)
  else if (Size node =? 1) && String.eqb (Token node 0) "never" then
    (emplace_back self (Expression_new "" "!=" 0), sink)
  else if (Size node =? 1)
          && (String.eqb (Token node 0) "and" || String.eqb (Token node 0) "or") then
    let (child, sink') := Load node ConditionSet_new sink in
    (push_child self child, sink')
  else
    (self, PrintTrace node unrecognized sink).
Proof. destruct node as [ts ns]. reflexivity. Qed.

Lemma Add_one (first : string) (below : list DataNode) (self : ConditionSet)
    (sink : Diagnostics) :
  Add (mkDataNode [first] below) self sink =
  if String.eqb first "never" then
    (emplace_back self (Expression_new "" "!=" 0), sink)
  else if String.eqb first "and" || String.eqb first "or" then
    let (child, sink') := Load (mkDataNode [first] below) ConditionSet_new sink in
    (push_child self child, sink')
  else
    (self, PrintTrace (mkDataNode [first] below) unrecognized sink).
Proof. rewrite Add_unfold. reflexivity. Qed.

Lemma Add_two (first second : string) (below : list DataNode) (self : ConditionSet)
    (sink : Diagnostics) :
  Add (mkDataNode [first; second] below) self sink =
  let (ok, self') := Add_unary first second self in
  if negb ok
  then (self', PrintTrace (mkDataNode [first; second] below) unrecognized sink)
  else (self', sink).
Proof. rewrite Add_unfold. reflexivity. Qed.

Lemma Add_three (key operator literal : string) (below : list DataNode)
    (self : ConditionSet) (sink : Diagnostics) :
  Add (mkDataNode [key; operator; literal] below) self sink =
  let (ok, self') :=
    Add_binary key operator (Int.wrap (token_value literal)) self in
  if negb ok
  then (self', PrintTrace (mkDataNode [key; operator; literal] below) unrecognized sink)
  else (self', sink).
Proof. rewrite Add_unfold. reflexivity. Qed.

Lemma Add_other (node : DataNode) (self : ConditionSet) (sink : Diagnostics) :
  (length (tokens node) = 0 \/ 4 <= length (tokens node))%nat ->
  Add node self sink = (self, PrintTrace node unrecognized sink).
Proof.
  intros Hlen. rewrite Add_unfold. unfold Size.
  destruct (Z.eqb_spec (Z.of_nat (length (tokens node))) 2); [lia|].
  destruct (Z.eqb_spec (Z.of_nat (length (tokens node))) 3); [lia|].
  destruct (Z.eqb_spec (Z.of_nat (length (tokens node))) 1); [lia|].
  reflexivity.
Qed.

Lemma eqb_keyword (first : string) :
  first ∉ keywords ->
  String.eqb first "not" = false /\ String.eqb first "has" = false /\
  String.eqb first "set" = false /\ String.eqb first "clear" = false.
Proof.
  intros Hkw. unfold keywords in Hkw.
  repeat split; apply String.eqb_neq; intros ->; apply Hkw;
    repeat first [apply list_elem_of_here | apply list_elem_of_further].
Qed.

(** C6: the unary shorthands add exactly the expression of the canonical
    binary line: [not x] is [x == 0], [has x] is [x != 0], [set x] is
    [x = 1], [clear x] is [x = 0], and, for [x] that is not one of these four
    keywords, [x ++] is [x += 1] and [x --] is [x -= 1].  The keyword of
    the first token is looked at first: the line [set ++] sets the condition
    named ["++"] to 1. *)
Theorem unary_shorthands (x : string) (self : ConditionSet) :
  Add_unary "not" x self = Add_binary x "==" 0 self /\
  Add_unary "has" x self = Add_binary x "!=" 0 self /\
  Add_unary "set" x self = Add_binary x "=" 1 self /\
  Add_unary "clear" x self = Add_binary x "=" 0 self /\
  (x ∉ keywords -> Add_unary x "++" self = Add_binary x "+=" 1 self) /\
  (x ∉ keywords -> Add_unary x "--" self = Add_binary x "-=" 1 self) /\
  Add_unary "set" "++" self = (true, emplace_back self (Expression_new "++" "=" 1)) /\
  (forall below sink,
     Add (mkDataNode ["set"; "++"] below) self sink
     = (emplace_back self (Expression_new "++" "=" 1), sink)).
Proof.
  repeat match goal with |- _ /\ _ => split end; try reflexivity.
  - intros Hkw. apply eqb_keyword in Hkw as (Hnot & Hhas & Hset & Hclear).
    unfold Add_unary. rewrite Hnot, Hhas, Hset, Hclear. reflexivity.
  - intros Hkw. apply eqb_keyword in Hkw as (Hnot & Hhas & Hset & Hclear).
    unfold Add_unary. rewrite Hnot, Hhas, Hset, Hclear. reflexivity.
Qed.

Lemma unary_shorthands_witness :
  Add_unary "x" "++" ConditionSet_new = Add_binary "x" "+=" 1 ConditionSet_new /\
  Add_unary "x" "--" ConditionSet_new = Add_binary "x" "-=" 1 ConditionSet_new.
Proof.
  assert (Hkw : "x" ∉ keywords).
  { unfold keywords. intros Hin.
    repeat (apply elem_of_cons in Hin as [Heq|Hin]; [discriminate Heq|]).
    inversion Hin. }
  destruct (unary_shorthands "x" ConditionSet_new) as (_ & _ & _ & _ & Hinc & Hdec & _).
  split; [exact (Hinc Hkw) | exact (Hdec Hkw)].
Defined.

(** ** Diagnostics and malformed lines *)

Lemma Add_each_app (before after : list DataNode) (acc : ConditionSet * Diagnostics) :
  Add_each (before ++ after) acc = Add_each after (Add_each before acc).
Proof.
  revert acc. induction before as [|line before IH]; intros acc; [reflexivity|].
  cbn [app Add_each]. apply IH.
Qed.

Lemma Add_each_sink (lines : list DataNode) :
  Forall sink_extended lines ->
  forall self sink,
    Add_each lines (self, sink)
    = (fst (Add_each lines (self, [])), sink ++ snd (Add_each lines (self, []))).
Proof.
  induction 1 as [|line lines Hline _ IH]; intros self sink.
  - cbn. now rewrite app_nil_r.
  - cbn [Add_each fst snd].
    rewrite (Hline self sink).
    destruct (Add line self []) as [self1 sink1]. cbn [fst snd].
    rewrite (IH self1 (sink ++ sink1)), (IH self1 sink1).
    cbn [fst snd]. now rewrite app_assoc.
Qed.

Lemma Add_sink (node : DataNode) : sink_extended node.
Proof.
  induction node as [ts ns IH] using DataNode_ind. intros self sink.
  destruct ts as [|first [|second [|third [|fourth ts]]]].
  - rewrite !Add_other by (cbn; lia). reflexivity.
  - rewrite !Add_one.
    destruct (String.eqb first "never"); [cbn; now rewrite app_nil_r|].
    destruct (String.eqb first "and" || String.eqb first "or"); [|reflexivity].
    unfold Load. cbn [nodes].
    rewrite (Add_each_sink ns IH _ sink).
    now destruct (Add_each ns _).
  - rewrite !Add_two.
    destruct (Add_unary first second self) as [[|] self'];
      cbn; [now rewrite app_nil_r | reflexivity].
  - rewrite !Add_three.
    destruct (Add_binary first second _ self) as [[|] self'];
      cbn; [now rewrite app_nil_r | reflexivity].
  - rewrite !Add_other by (cbn; lia). reflexivity.
Qed.

Lemma Add_each_sink_all (lines : list DataNode) (self : ConditionSet)
    (sink : Diagnostics) :
  Add_each lines (self, sink)
  = (fst (Add_each lines (self, [])), sink ++ snd (Add_each lines (self, []))).
Proof.
  apply Add_each_sink. apply Forall_forall. intros node _. apply Add_sink.
Qed.

Lemma Add_malformed (node : DataNode) (self : ConditionSet) (sink : Diagnostics) :
  malformed node ->
  Add node self sink = (self, sink ++ [(unrecognized, tokens node)]).
Proof.
  destruct node as [ts ns]. unfold malformed. cbn [tokens].
  destruct ts as [|first [|second [|third [|fourth ts]]]].
  - intros _. now rewrite Add_other by (cbn; lia).
  - intros (Hnever & Hand & Hor). rewrite Add_one.
    apply String.eqb_neq in Hnever, Hand, Hor.
    now rewrite Hnever, Hand, Hor.
  - intros (Hkw & Hinc & Hdec). rewrite Add_two.
    apply eqb_keyword in Hkw as (Hnot & Hhas & Hset & Hclear).
    apply String.eqb_neq in Hinc, Hdec.
    unfold Add_unary. now rewrite Hnot, Hhas, Hset, Hclear, Hinc, Hdec.
  - intros Hop. rewrite Add_three. unfold Add_binary. now rewrite Hop.
  - intros _. now rewrite Add_other by (cbn; lia).
Qed.

(** C8: a line that matches no rule is reported and dropped: [Add] leaves
    the tree as it was and hands one diagnostic to the sink.  Construction
    goes on with the lines that follow: a block with such a line builds the
    tree of the block without it, and a block of two lines that each add an
    expression and one malformed line, wherever it stands, builds the tree
    of exactly these two expressions. *)
Theorem malformed_line_is_skipped :
  (forall node self sink,
     malformed node ->
     Add node self sink = (self, sink ++ [(unrecognized, tokens node)])) /\
  (forall header before bad after self sink,
     malformed bad ->
     fst (Load (mkDataNode header (before ++ bad :: after)) self sink)
     = fst (Load (mkDataNode header (before ++ after)) self sink) /\
     (unrecognized, tokens bad)
       ∈ snd (Load (mkDataNode header (before ++ bad :: after)) self sink)) /\
  (forall header first second bad e1 e2 lines,
     yields first e1 -> yields second e2 -> malformed bad ->
     lines ∈ [[bad; first; second]; [first; bad; second]; [first; second; bad]] ->
     Load (mkDataNode header lines) ConditionSet_new []
     = ({| isOr := String.eqb (nth 0 header "") "or";
           expressions := [e1; e2];
           children := [] |},
        [(unrecognized, tokens bad)])).
Proof.
  split; [|split].
  - intros node self sink. apply Add_malformed.
  - intros header before bad after self sink Hbad.
    unfold Load. cbn [nodes]. rewrite !Add_each_app. cbn [Add_each].
    destruct (Add_each before _) as [self1 sink1]. cbn [fst snd].
    rewrite (Add_malformed bad self1 sink1 Hbad).
    rewrite (Add_each_sink_all after self1 (sink1 ++ _)).
    rewrite (Add_each_sink_all after self1 sink1). cbn [fst snd].
    split; [reflexivity|].
    rewrite !elem_of_app, list_elem_of_singleton. auto.
  - intros header first second bad e1 e2 lines H1 H2 Hbad Hlines.
    unfold Load. cbn [nodes].
    repeat (apply elem_of_cons in Hlines as [->|Hlines]);
      [| | |inversion Hlines];
      cbn [Add_each fst snd];
      repeat first [rewrite (Add_malformed bad) by assumption
                   | rewrite H1 | rewrite H2 | progress cbn [fst snd]];
      reflexivity.
Qed.

Lemma malformed_line_is_skipped_witness :
  Load (mkDataNode ["to"; "offer"]
          [mkDataNode ["x"; "=="; "3"] []; mkDataNode ["q"; "?="; "3"] [];
           mkDataNode ["has"; "y"] []]) ConditionSet_new []
  = ({| isOr := false;
        expressions := [Expression_new "x" "==" 3; Expression_new "y" "!=" 0];
        children := [] |},
     [(unrecognized, ["q"; "?="; "3"])]).
Proof.
  apply (proj2 (proj2 malformed_line_is_skipped)
           ["to"; "offer"]
           (mkDataNode ["x"; "=="; "3"] []) (mkDataNode ["has"; "y"] [])
           (mkDataNode ["q"; "?="; "3"] [])).
  - intros self sink. rewrite Add_three. reflexivity.
  - intros self sink. rewrite Add_two. reflexivity.
  - reflexivity.
  - apply list_elem_of_further, list_elem_of_here.
Defined.

(** ** [Save] and the round trip *)

Lemma token_round_trip (v : Z) : token_value (int_token v) = v.
Proof.
  unfold token_value, int_token.
  rewrite NilZero.isi.
  - apply DecimalZ.of_to.
  - destruct v; cbn; try discriminate.
    intros [= H]. now apply DecimalPos.Unsigned.to_uint_nonnil in H.
  - destruct v; cbn; try discriminate.
    intros [= H]. now apply DecimalPos.Unsigned.to_uint_nonnil in H.
Qed.

Lemma Save_unfold (self : ConditionSet) (out : DataWriter) :
  Save self out
  = Save_children (children self) (Save_expressions (expressions self) out).
Proof. destruct self as [b es cs]. reflexivity. Qed.

Lemma Save_expressions_eq (es : list Expression) (out : DataWriter) :
  Save_expressions es out
  = {| written :=
         written out
         ++ map (fun e => mkDataNode [name e; op e; int_token (value e)] []) es;
       enclosing := enclosing out |}.
Proof.
  unfold Save_expressions. revert out.
  induction es as [|e es IH]; intros out; cbn [fold_left map].
  - rewrite app_nil_r. now destruct out.
  - rewrite IH. unfold Write. cbn [written enclosing].
    now rewrite <- app_assoc.
Qed.

Lemma attach_last (level block : list DataNode) (parent : DataNode) :
  attach (level ++ [parent]) block
  = level ++ [mkDataNode (tokens parent) (nodes parent ++ block)].
Proof.
  induction level as [|line level IH]; [reflexivity|].
  cbn [app attach]. rewrite IH.
  destruct level; reflexivity.
Qed.

Lemma Save_eq (self : ConditionSet) :
  forall out : DataWriter,
    Save self out
    = {| written := written out ++ Save_lines self; enclosing := enclosing out |}.
Proof.
  induction self as [b es cs IH] using ConditionSet_ind. intros out.
  rewrite Save_unfold, Save_expressions_eq.
  cbn [expressions children Save_lines]. rewrite app_assoc.
  generalize (written out
              ++ map (fun e => mkDataNode [name e; op e; int_token (value e)] []) es).
  generalize (enclosing out). clear out.
  induction IH as [|c cs Hc _ IHcs]; intros outer lines.
  - cbn. now rewrite app_nil_r.
  - cbn [Save_children map]. rewrite Hc.
    unfold EndChild, BeginChild, Write. cbn [written enclosing].
    rewrite attach_last, IHcs. cbn [tokens nodes app].
    now rewrite <- app_assoc.
Qed.

Lemma Expression_new_eta (e : Expression) :
  fun_ e = Op (op e) -> Expression_new (name e) (op e) (value e) = e.
Proof. destruct e as [n o f v]. cbn. now intros ->. Qed.

Lemma Add_saved_expression (e : Expression) (self : ConditionSet)
    (sink : Diagnostics) :
  bound e ->
  Add (mkDataNode [name e; op e; int_token (value e)] []) self sink
  = (emplace_back self e, sink).
Proof.
  intros (Hfun & Hop & Hrange). rewrite Add_three. unfold Add_binary.
  destruct (Op (op e)) as [f|] eqn:Ef; [|congruence].
  rewrite token_round_trip, wrap_id by assumption.
  cbn. now rewrite Expression_new_eta by congruence.
Qed.

Lemma Add_each_saved_expressions (es : list Expression) (self : ConditionSet)
    (sink : Diagnostics) :
  Forall bound es ->
  Add_each (map (fun e => mkDataNode [name e; op e; int_token (value e)] []) es)
           (self, sink)
  = ({| isOr := isOr self;
        expressions := expressions self ++ es;
        children := children self |}, sink).
Proof.
  intros Hes. revert self. induction Hes as [|e es He _ IH]; intros self.
  - cbn. rewrite app_nil_r. now destruct self.
  - cbn [map Add_each fst snd]. rewrite Add_saved_expression by assumption.
    rewrite IH. unfold emplace_back. cbn [isOr expressions children].
    now rewrite <- app_assoc.
Qed.

(** Loading the lines [Save] wrote for a tree adds the expressions and the
    children of that tree, and reports nothing. *)
Lemma Add_each_Save_lines (tree : ConditionSet) :
  well_formed tree ->
  forall self sink,
    Add_each (Save_lines tree) (self, sink)
    = ({| isOr := isOr self;
          expressions := expressions self ++ expressions tree;
          children := children self ++ children tree |}, sink).
Proof.
  induction tree as [b es cs IH] using ConditionSet_ind.
  rewrite well_formed_node. intros [Hes Hcs] self sink.
  cbn [Save_lines expressions children].
  rewrite Add_each_app, Add_each_saved_expressions by assumption.
  generalize (expressions self ++ es). intros es'.
  replace (children self) with (children self ++ []) at 1 by apply app_nil_r.
  change cs with ([] ++ cs) at 2.
  generalize (@nil ConditionSet) as done.
  induction IH as [|c cs Hc _ IHcs]; intros done.
  - cbn. now rewrite !app_nil_r.
  - apply Forall_cons in Hcs as [Hwf Hcs].
    cbn [map Add_each fst snd]. rewrite Add_one.
    replace (String.eqb (if isOr c then "or" else "and") "never") with false
      by now destruct (isOr c).
    replace (String.eqb (if isOr c then "or" else "and") "and"
             || String.eqb (if isOr c then "or" else "and") "or") with true
      by now destruct (isOr c).
    unfold Load. cbn [nodes Token tokens nth].
    rewrite (Hc Hwf). cbn [isOr expressions children ConditionSet_new app].
    replace (String.eqb (if isOr c then "or" else "and") "or") with (isOr c)
      by now destruct (isOr c).
    unfold push_child. cbn [isOr expressions children].
    replace {| isOr := isOr c; expressions := expressions c; children := children c |}
      with c by now destruct c.
    rewrite <- app_assoc.
    specialize (IHcs Hcs (done ++ [c])).
    rewrite <- !app_assoc in IHcs. exact IHcs.
Qed.

Lemma bound_Expression_new (key operator : string) (v : Z) :
  Op operator <> None -> Int.in_range v -> bound (Expression_new key operator v).
Proof. intros Hop Hv. unfold bound. cbn. auto. Qed.

Lemma well_formed_emplace_back (self : ConditionSet) (e : Expression) :
  well_formed self -> bound e -> well_formed (emplace_back self e).
Proof.
  destruct self as [b es cs]. unfold emplace_back. cbn [isOr expressions children].
  rewrite !well_formed_node, Forall_app. intros [Hes Hcs] He.
  repeat split; auto.
Qed.

Lemma well_formed_push_child (self child : ConditionSet) :
  well_formed self -> well_formed child -> well_formed (push_child self child).
Proof.
  destruct self as [b es cs]. unfold push_child. cbn [isOr expressions children].
  rewrite !well_formed_node, Forall_app. intros [Hes Hcs] Hc.
  repeat split; auto.
Qed.

Lemma in_range_small (v : Z) : -1 <= v <= 1 -> Int.in_range v.
Proof. unfold Int.in_range, Int.INT_MIN, Int.INT_MAX. lia. Qed.

Lemma Add_unary_well_formed (first second : string) (self : ConditionSet) :
  well_formed self -> well_formed (snd (Add_unary first second self)).
Proof.
  intros Hwf. unfold Add_unary.
  repeat match goal with
         | |- context [if ?c then _ else _] => destruct c
         end; cbn [snd]; try assumption;
    apply well_formed_emplace_back; try assumption;
    (apply bound_Expression_new; [discriminate | apply in_range_small; lia]).
Qed.

Lemma Add_binary_well_formed (key operator : string) (v : Z) (self : ConditionSet) :
  well_formed self -> Int.in_range v ->
  well_formed (snd (Add_binary key operator v self)).
Proof.
  intros Hwf Hv. unfold Add_binary.
  destruct (Op operator) eqn:E; cbn; [|assumption].
  apply well_formed_emplace_back; [assumption|].
  apply bound_Expression_new; [congruence | assumption].
Qed.

Lemma Add_each_well_formed (lines : list DataNode) :
  Forall builds_well_formed lines ->
  forall acc, well_formed (fst acc) -> well_formed (fst (Add_each lines acc)).
Proof.
  induction 1 as [|line lines Hline _ IH]; intros acc Hacc; [assumption|].
  cbn [Add_each]. apply IH. now apply Hline.
Qed.

Lemma well_formed_new (b : bool) :
  well_formed {| isOr := b; expressions := []; children := [] |}.
Proof. apply well_formed_node. split; constructor. Qed.

(** Whatever the lines, [Add] keeps the tree well formed. *)
Lemma Add_well_formed (node : DataNode) : builds_well_formed node.
Proof.
  induction node as [ts ns IH] using DataNode_ind. intros self sink Hwf.
  destruct ts as [|first [|second [|third [|fourth ts]]]].
  - now rewrite Add_other by (cbn; lia).
  - rewrite Add_one.
    destruct (String.eqb first "never").
    { apply well_formed_emplace_back; [assumption|].
      apply bound_Expression_new; [discriminate | apply in_range_small; lia]. }
    destruct (String.eqb first "and" || String.eqb first "or"); [|assumption].
    unfold Load. cbn [nodes].
    pose proof (Add_each_well_formed ns IH
                  ({| isOr := String.eqb (Token (mkDataNode [first] ns) 0) "or";
                      expressions := expressions ConditionSet_new;
                      children := children ConditionSet_new |}, sink)
                  (well_formed_new _)) as Hchild.
    destruct (Add_each ns _) as [child sink']. cbn [fst] in *.
    now apply well_formed_push_child.
  - rewrite Add_two.
    pose proof (Add_unary_well_formed first second self Hwf) as H.
    now destruct (Add_unary first second self) as [[|] self'].
  - rewrite Add_three.
    pose proof (Add_binary_well_formed first second _ self Hwf
                  (wrap_in_range (token_value third))) as H.
    now destruct (Add_binary first second _ self) as [[|] self'].
  - now rewrite Add_other by (cbn; lia).
Qed.

Lemma Load_well_formed (node : DataNode) (sink : Diagnostics) :
  well_formed (fst (Load node ConditionSet_new sink)).
Proof.
  unfold Load. apply Add_each_well_formed.
  - apply Forall_forall. intros line _. apply Add_well_formed.
  - apply well_formed_new.
Qed.

Lemma Add_each_isOr (lines : list DataNode) (acc : ConditionSet * Diagnostics) :
  isOr (fst (Add_each lines acc)) = isOr (fst acc).
Proof.
  revert acc. induction lines as [|line lines IH]; intros acc; [reflexivity|].
  cbn [Add_each]. rewrite IH, Add_unfold.
  repeat match goal with
         | |- context [if ?c then _ else _] => destruct c
         | |- context [let (_, _) := ?p in _] => destruct p eqn:?
         end; cbn [fst isOr emplace_back push_child]; try reflexivity;
    unfold Add_unary, Add_binary in *;
    repeat match goal with
           | H : context [if ?c then _ else _] |- _ => destruct c
           | H : context [match ?c with Some _ => _ | None => _ end] |- _ => destruct c
           | H : (_, _) = (_, _) |- _ => injection H as <- <-
           end; reflexivity.
Qed.

(** Saving a well-formed tree and loading the lines under a header with the
    same combinator gives the tree back, with nothing reported. *)
Lemma reload_well_formed (header : list string) (self : ConditionSet) :
  well_formed self ->
  String.eqb (nth 0 header "") "or" = isOr self ->
  Load (mkDataNode header (written (Save self DataWriter_new))) ConditionSet_new []
  = (self, []).
Proof.
  intros Hwf Hor. rewrite Save_eq. cbn [written DataWriter_new app].
  unfold Load. cbn [nodes Token tokens].
  rewrite Add_each_Save_lines by assumption.
  cbn [isOr expressions children ConditionSet_new app].
  unfold Token. cbn [tokens]. rewrite Hor. now destruct self.
Qed.

(** C7: a tree loaded from canonical lines (binary lines with an operator of
    the table, [and]/[or] groups of such lines), saved and loaded again under
    a header with the same first-token combinator, is the tree it was, so
    that [Test] and [Apply] cannot tell the two apart in any world.  For
    every tree [Save] appends one record [(name, op, value)] per expression
    in order, then per child one record [and] or [or], by the child's
    combinator, with the lines of the child's own [Save] in the block below
    it. *)
Theorem Save_Load_round_trip :
  (forall node header,
     Forall canonical (nodes node) ->
     String.eqb (nth 0 header "") "or" = String.eqb (Token node 0) "or" ->
     let tree := fst (Load node ConditionSet_new []) in
     reload header tree = tree /\
     (forall w, Test (reload header tree) w = Test tree w) /\
     (forall w, Apply (reload header tree) w = Apply tree w)) /\
  (forall self out,
     Save self out
     = {| written := written out ++ Save_lines self; enclosing := enclosing out |}) /\
  (forall self,
     Save_lines self
     = map (fun e => mkDataNode [name e; op e; int_token (value e)] [])
           (expressions self)
       ++ map (fun child =>
                 mkDataNode [if isOr child then "or" else "and"] (Save_lines child))
              (children self)).
Proof.
  split; [|split].
  - intros node header _ Hor tree.
    assert (Hre : reload header tree = tree).
    { unfold reload. rewrite reload_well_formed; [reflexivity | apply Load_well_formed |].
      subst tree. unfold Load. now rewrite Add_each_isOr. }
    rewrite Hre. repeat split.
  - intros self out. apply Save_eq.
  - intros [b es cs]. reflexivity.
Qed.

Lemma Save_Load_round_trip_witness :
  let tree := fst (Load round_trip_block ConditionSet_new []) in
  reload ["to"; "offer"] tree = tree /\
  (forall w, Test (reload ["to"; "offer"] tree) w = Test tree w) /\
  (forall w, Apply (reload ["to"; "offer"] tree) w = Apply tree w).
Proof.
  apply (proj1 Save_Load_round_trip round_trip_block ["to"; "offer"]).
  - unfold round_trip_block. cbn [nodes].
    repeat first [ apply List.Forall_nil
                 | apply List.Forall_cons
                 | apply canonical_binary; discriminate
                 | apply canonical_group; [auto|] ].
  - reflexivity.
Defined.

(** * Further properties *)

(** ** What a line does *)

(** [Add] by the kind of the line: an expression line, a line that opens a
    nested set, or a rejected line. *)
Lemma Add_by_kind (node : DataNode) (self : ConditionSet) (sink : Diagnostics) :
  Add node self sink =
  match line_expression node with
  | Some e => (emplace_back self e, sink)
  | None =>
      if is_group node then
        let (child, sink') := Load node ConditionSet_new sink in
        (push_child self child, sink')
      else (self, sink ++ [(unrecognized, tokens node)])
  end.
Proof.
  destruct node as [ts ns]. unfold line_expression, is_group. cbn [tokens].
  destruct ts as [|first [|second [|third [|fourth ts]]]].
  - now rewrite Add_other by (cbn; lia).
  - rewrite Add_one. now destruct (String.eqb first "never").
  - rewrite Add_two. unfold Add_unary.
    repeat match goal with
           | |- context [if String.eqb ?a ?b then _ else _] =>
               destruct (String.eqb a b)
           end; reflexivity.
  - rewrite Add_three. unfold Add_binary. now destruct (Op second).
  - now rewrite Add_other by (cbn; lia).
Qed.

Lemma malformed_by_kind (node : DataNode) :
  malformed node <-> line_expression node = None /\ is_group node = false.
Proof.
  destruct node as [ts ns]. unfold malformed, line_expression, is_group.
  cbn [tokens].
  destruct ts as [|first [|second [|third [|fourth ts]]]]; try tauto.
  - destruct (String.eqb_spec first "never") as [->|Hnever];
      [split; [tauto | intros [[=] _]]|].
    destruct (String.eqb_spec first "and") as [->|Hand];
      [split; [tauto | intros [_ [=]]]|].
    destruct (String.eqb_spec first "or") as [->|Hor];
      [split; [tauto | intros [_ [=]]]|].
    tauto.
  - split.
    + intros (Hkw & Hinc & Hdec).
      apply eqb_keyword in Hkw as (-> & -> & -> & ->).
      apply String.eqb_neq in Hinc, Hdec. now rewrite Hinc, Hdec.
    + intros [H _]. unfold keywords.
      destruct (String.eqb_spec first "not"); [discriminate|].
      destruct (String.eqb_spec first "has"); [discriminate|].
      destruct (String.eqb_spec first "set"); [discriminate|].
      destruct (String.eqb_spec first "clear"); [discriminate|].
      destruct (String.eqb_spec second "++"); [discriminate|].
      destruct (String.eqb_spec second "--"); [discriminate|].
      repeat split; try assumption.
      rewrite !elem_of_cons, elem_of_nil. tauto.
  - destruct (Op second); split; try tauto; try congruence.
    intros [[=] _].
Qed.



(** ** [Load] into a set that has members *)

Lemma Add_appends (node : DataNode) (self : ConditionSet) (sink : Diagnostics) :
  Add node self sink
  = ({| isOr := isOr self;
        expressions :=
          expressions self ++ expressions (fst (Add node ConditionSet_new []));
        children :=
          children self ++ children (fst (Add node ConditionSet_new [])) |},
     sink ++ snd (Add node ConditionSet_new [])).
Proof.
  rewrite !Add_by_kind.
  destruct (line_expression node) as [e|].
  - cbn. now rewrite !app_nil_r.
  - destruct (is_group node).
    + unfold Load. rewrite (Add_each_sink_all _ _ sink).
      destruct (Add_each (nodes node) _) as [child sink']. cbn.
      now rewrite !app_nil_r.
    + cbn. rewrite !app_nil_r. now destruct self.
Qed.

Lemma Add_each_appends (lines : list DataNode) (self : ConditionSet)
    (sink : Diagnostics) :
  Add_each lines (self, sink)
  = ({| isOr := isOr self;
        expressions :=
          expressions self
          ++ expressions (fst (Add_each lines (ConditionSet_new, [])));
        children :=
          children self
          ++ children (fst (Add_each lines (ConditionSet_new, []))) |},
     sink ++ snd (Add_each lines (ConditionSet_new, []))).
Proof.
  revert self sink.
  assert (Hgen : forall lines self sink b,
             Add_each lines (self, sink)
             = ({| isOr := isOr self;
                   expressions :=
                     expressions self
                     ++ expressions
                          (fst (Add_each lines
                                  ({| isOr := b; expressions := [];
                                      children := [] |}, [])));
                   children :=
                     children self
                     ++ children
                          (fst (Add_each lines
                                  ({| isOr := b; expressions := [];
                                      children := [] |}, []))) |},
                sink
                ++ snd (Add_each lines
                          ({| isOr := b; expressions := []; children := [] |},
                           [])))).
  { clear lines. intros lines.
    induction lines as [|line lines IH]; intros self sink b.
    - cbn. rewrite !app_nil_r. now destruct self.
    - cbn [Add_each fst snd].
      rewrite (Add_appends line self sink).
      rewrite (Add_appends line {| isOr := b; expressions := []; children := [] |} []).
      destruct (Add line ConditionSet_new []) as [one sink1].
      cbn [fst snd isOr expressions children app].
      rewrite (IH _ (sink ++ sink1) b), (IH _ sink1 b).
      cbn [fst snd isOr expressions children].
      now rewrite !app_assoc. }
  intros self sink. apply (Hgen lines self sink false).
Qed.

(** X2: [Load] does not clear the set it loads into.  The set keeps its
    expressions and its children, in front of what the node adds; only the
    combinator is replaced, and it is OR exactly when the first token of the
    node is ["or"].  The diagnostics are those of the node, after the ones
    the sink held. *)
Theorem Load_appends (node : DataNode) (self : ConditionSet) (sink : Diagnostics) :
  Load node self sink
  = ({| isOr := String.eqb (Token node 0) "or";
        expressions :=
          expressions self ++ expressions (fst (Load node ConditionSet_new []));
        children :=
          children self ++ children (fst (Load node ConditionSet_new [])) |},
     sink ++ snd (Load node ConditionSet_new [])).
Proof.
  unfold Load. cbn [expressions children ConditionSet_new].
  rewrite Add_each_appends. cbn [isOr expressions children].
  set (fresh := Add_each (nodes node)
                  ({| isOr := String.eqb (Token node 0) "or";
                      expressions := []; children := [] |}, [])).
  assert (Hfresh : fresh
                   = ({| isOr := String.eqb (Token node 0) "or";
                         expressions :=
                           expressions (fst (Add_each (nodes node) (ConditionSet_new, [])));
                         children :=
                           children (fst (Add_each (nodes node) (ConditionSet_new, []))) |},
                      snd (Add_each (nodes node) (ConditionSet_new, [])))).
  { unfold fresh. now rewrite Add_each_appends. }
  now rewrite Hfresh.
Qed.

(** ** Empty sets *)

Lemma IsEmpty_emplace_back (self : ConditionSet) (e : Expression) :
  IsEmpty (emplace_back self e) = false.
Proof. unfold IsEmpty, emplace_back. cbn. now destruct (expressions self). Qed.

Lemma IsEmpty_push_child (self child : ConditionSet) :
  IsEmpty (push_child self child) = false.
Proof.
  unfold IsEmpty, push_child. cbn.
  now destruct (expressions self), (children self).
Qed.

Lemma IsEmpty_Add (node : DataNode) (self : ConditionSet) (sink : Diagnostics) :
  IsEmpty (fst (Add node self sink)) = true <->
  IsEmpty self = true /\ malformed node.
Proof.
  rewrite Add_by_kind, malformed_by_kind.
  destruct (line_expression node) as [e|].
  - cbn [fst]. rewrite IsEmpty_emplace_back.
    split; [discriminate | intros [_ [[=] _]]].
  - destruct (is_group node).
    + destruct (Load node ConditionSet_new sink) as [child sink']. cbn [fst].
      rewrite IsEmpty_push_child.
      split; [discriminate | intros [_ [_ [=]]]].
    + cbn [fst]. tauto.
Qed.

Lemma IsEmpty_Add_each (lines : list DataNode) (acc : ConditionSet * Diagnostics) :
  IsEmpty (fst (Add_each lines acc)) = true <->
  IsEmpty (fst acc) = true /\ Forall malformed lines.
Proof.
  revert acc. induction lines as [|line lines IH]; intros acc.
  - cbn [Add_each]. split; [intros H; split; [assumption | constructor] | tauto].
  - cbn [Add_each]. rewrite IH, IsEmpty_Add, Forall_cons. tauto.
Qed.

Lemma Save_children_nil (out : DataWriter) : Save_children [] out = out.
Proof. reflexivity. Qed.

(** X3: a set loaded into a fresh [ConditionSet] is empty exactly when every
    line of the node was rejected, in particular when the node has no lines;
    a nested [and] or [or] line makes the set non-empty even when nothing is
    below it.  On an empty set [Apply] changes nothing and [Save] writes
    nothing. *)
Theorem IsEmpty_Load :
  (forall node sink,
     IsEmpty (fst (Load node ConditionSet_new sink)) = true
     <-> Forall malformed (nodes node)) /\
  (forall keyword self sink,
     keyword = "and" \/ keyword = "or" ->
     IsEmpty (fst (Add (mkDataNode [keyword] []) self sink)) = false) /\
  (forall self w out,
     IsEmpty self = true ->
     Apply self w = Some (tt, w) /\ Save self out = out).
Proof.
  split; [|split].
  - intros node sink. unfold Load. rewrite IsEmpty_Add_each. cbn. tauto.
  - intros keyword self sink Hkw. rewrite Add_one.
    destruct Hkw as [-> | ->]; cbn; unfold IsEmpty; cbn;
      destruct (expressions self), (children self); reflexivity.
  - intros [b es cs] w out Hempty. unfold IsEmpty in Hempty.
    cbn [expressions children] in Hempty.
    destruct es; [|discriminate]. destruct cs; [|discriminate].
    split; [reflexivity|]. rewrite Save_unfold. reflexivity.
Qed.

Lemma IsEmpty_Load_witness :
  IsEmpty (fst (Add (mkDataNode ["and"] []) ConditionSet_new [])) = false /\
  Apply ConditionSet_new (world0 {["gold" := 2]})
    = Some (tt, world0 {["gold" := 2]}) /\
  Save ConditionSet_new DataWriter_new = DataWriter_new.
Proof.
  destruct IsEmpty_Load as (_ & Hgroup & Hempty).
  split; [apply Hgroup; left; reflexivity|].
  apply Hempty. reflexivity.
Defined.

(** ** Loaded sets can be evaluated *)

Lemma Apply_total (self : ConditionSet) (w : World) :
  well_formed self -> is_Some (Apply self w).
Proof. intros Hwf. now rewrite Apply_eq. Qed.

(** X4: whatever the node, every expression of the set [Load] builds in a
    fresh [ConditionSet] carries the function the table binds to its
    operator, which is not null; [Test] and [Apply] therefore return on it in
    every world, without a call through a null pointer. *)
Theorem Load_evaluates (node : DataNode) (sink : Diagnostics) (w : World) :
  Forall (fun e => fun_ e = Op (op e) /\ Op (op e) <> None)
         (all_expressions (fst (Load node ConditionSet_new sink))) /\
  is_Some (Test (fst (Load node ConditionSet_new sink)) w) /\
  is_Some (Apply (fst (Load node ConditionSet_new sink)) w).
Proof.
  pose proof (Load_well_formed node sink) as Hwf.
  split; [|split].
  - eapply Forall_impl; [exact Hwf|]. intros e (Hfun & Hop & _). now split.
  - now apply Test_total.
  - now apply Apply_total.
Qed.

(** ** Saving what was loaded from any lines *)

Lemma Save_lines_canonical (self : ConditionSet) :
  well_formed self -> Forall canonical (Save_lines self).
Proof.
  induction self as [b es cs IH] using ConditionSet_ind.
  rewrite well_formed_node. intros [Hes Hcs].
  cbn [Save_lines expressions children]. apply Forall_app. split.
  - apply Forall_map. eapply Forall_impl; [exact Hes|].
    intros e (_ & Hop & _). now apply canonical_binary.
  - apply Forall_map. clear Hes.
    induction IH as [|c cs Hc _ IHcs]; [constructor|].
    apply Forall_cons in Hcs as [Hwf Hcs].
    constructor; [|now apply IHcs].
    apply canonical_group; [destruct (isOr c); auto | now apply Hc].
Qed.

(** X5: the round trip does not need canonical input.  Whatever lines a set
    was loaded from (shorthands, [never], rejected lines), [Save] writes only
    canonical lines, and loading these under a header with the same
    combinator gives the same set back and reports nothing; saving the
    reloaded set writes the same lines again. *)
Theorem Save_normalizes (node : DataNode) (header : list string) (sink : Diagnostics) :
  String.eqb (nth 0 header "") "or" = String.eqb (Token node 0) "or" ->
  let tree := fst (Load node ConditionSet_new sink) in
  Forall canonical (written (Save tree DataWriter_new)) /\
  Load (mkDataNode header (written (Save tree DataWriter_new))) ConditionSet_new []
  = (tree, []) /\
  Save (reload header tree) DataWriter_new = Save tree DataWriter_new.
Proof.
  intros Hor tree.
  assert (Hwf : well_formed tree) by apply Load_well_formed.
  assert (Hre : Load (mkDataNode header (written (Save tree DataWriter_new)))
                     ConditionSet_new [] = (tree, [])).
  { apply reload_well_formed; [assumption|].
    subst tree. unfold Load. now rewrite Add_each_isOr. }
  split; [|split].
  - rewrite Save_eq. cbn [written DataWriter_new app].
    now apply Save_lines_canonical.
  - exact Hre.
  - unfold reload. now rewrite Hre.
Qed.

Lemma Save_normalizes_witness :
  let tree := fst (Load shorthand_block ConditionSet_new []) in
  Forall canonical (written (Save tree DataWriter_new)) /\
  Load (mkDataNode ["to"; "complete"] (written (Save tree DataWriter_new)))
       ConditionSet_new []
  = (tree, []) /\
  Save (reload ["to"; "complete"] tree) DataWriter_new = Save tree DataWriter_new.
Proof.
  apply (Save_normalizes shorthand_block ["to"; "complete"] []).
  reflexivity.
Defined.

(** ** [Test] as a formula *)

Lemma Forall_all_expressions (P : Expression -> Prop) (b : bool)
    (es : list Expression) (cs : list ConditionSet) :
  Forall P (all_expressions (mkConditionSet b es cs)) <->
  Forall P es /\ Forall (fun c => Forall P (all_expressions c)) cs.
Proof.
  cbn [all_expressions expressions children].
  rewrite Forall_app. apply and_iff_compat_l.
  induction cs as [|c cs IH]; cbn [flat_map].
  - split; intros; constructor.
  - rewrite Forall_app, IH, Forall_cons. reflexivity.
Qed.

Lemma Test_expression_holds (e : Expression) (w : World) :
  bound e -> name e <> "random" ->
  Test_expression e w = Some (holds (conditions w) e, w).
Proof.
  intros (Hfun & Hop & _) Hname.
  rewrite Test_expression_eq, Test_value_other by assumption.
  unfold holds. rewrite Hfun. now destruct (Op (op e)).
Qed.

Lemma Test_expressions_hit (b : bool) (es : list Expression) (w : World) :
  Forall bound es -> Forall (fun e => name e <> "random") es ->
  Test_expressions b es w
  = Some (if existsb (fun e => Bool.eqb (holds (conditions w) e) b) es
          then Some b else None, w).
Proof.
  intros Hes. induction Hes as [|e es He _ IH]; intros Hfree; [reflexivity|].
  apply Forall_cons in Hfree as [Hname Hfree].
  cbn [Test_expressions existsb]. rewrite bind_eq.
  rewrite Test_expression_holds by assumption.
  destruct (Bool.eqb (holds (conditions w) e) b) eqn:E; cbn [orb].
  - apply Bool.eqb_prop in E. now rewrite E.
  - now apply IH.
Qed.

Lemma Test_children_hit (b : bool) (cs : list ConditionSet) (w : World) :
  Forall (fun c => forall w, Test c w = Some (satisfied (conditions w) c, w)) cs ->
  Test_children b cs w
  = Some (if existsb (fun c => Bool.eqb (satisfied (conditions w) c) b) cs
          then Some b else None, w).
Proof.
  induction 1 as [|c cs Hc _ IH]; [reflexivity|].
  cbn [Test_children existsb]. rewrite bind_eq, Hc.
  destruct (Bool.eqb (satisfied (conditions w) c) b) eqn:E; cbn [orb].
  - apply Bool.eqb_prop in E. now rewrite E.
  - exact IH.
Qed.

Lemma existsb_eqb_true {A : Type} (f : A -> bool) (l : list A) :
  existsb (fun x => Bool.eqb (f x) true) l = existsb f l.
Proof.
  induction l as [|x l IH]; [reflexivity|].
  cbn [existsb]. rewrite IH. now destruct (f x).
Qed.

Lemma existsb_eqb_false {A : Type} (f : A -> bool) (l : list A) :
  existsb (fun x => Bool.eqb (f x) false) l = negb (forallb f l).
Proof.
  induction l as [|x l IH]; [reflexivity|].
  cbn [existsb forallb]. rewrite IH. now destruct (f x).
Qed.

Lemma satisfied_unfold (m : gmap string Z) (self : ConditionSet) :
  satisfied m self =
  if isOr self
  then existsb (holds m) (expressions self)
       || existsb (satisfied m) (children self)
  else forallb (holds m) (expressions self)
       && forallb (satisfied m) (children self).
Proof. now destruct self. Qed.

(** X6: on a set without a ["random"] expression, with bound functions,
    [Test] computes the formula the set stands for: in OR mode the
    disjunction, in AND mode the conjunction, of the truth values of its
    expressions and of its children, where an expression is true when its
    function gives a non-zero value on the entry of its name (0 when absent)
    and its operand.  The world is left exactly as it was: no draw is
    made. *)
Theorem Test_is_formula (self : ConditionSet) :
  well_formed self -> random_free self ->
  forall w : World, Test self w = Some (satisfied (conditions w) self, w).
Proof.
  unfold well_formed, random_free.
  induction self as [b es cs IH] using ConditionSet_ind.
  rewrite !Forall_all_expressions. intros [Hes Hcs] [Hfree Hfrees] w.
  assert (Hall : Forall (fun c => forall w,
                           Test c w = Some (satisfied (conditions w) c, w)) cs).
  { clear -IH Hcs Hfrees.
    induction IH as [|c cs Hc _ IHcs]; [constructor|].
    apply Forall_cons in Hcs as [Hwf Hcs].
    apply Forall_cons in Hfrees as [Hf Hfrees].
    constructor; [now apply Hc | now apply IHcs]. }
  rewrite Test_unfold, satisfied_unfold. cbn [isOr expressions children].
  rewrite bind_eq, Test_expressions_hit by assumption.
  destruct b.
  - rewrite existsb_eqb_true.
    destruct (existsb (holds (conditions w)) es); [reflexivity|].
    rewrite bind_eq, Test_children_hit by assumption.
    rewrite existsb_eqb_true.
    now destruct (existsb (satisfied (conditions w)) cs).
  - rewrite existsb_eqb_false.
    destruct (forallb (holds (conditions w)) es); [|reflexivity].
    cbn [negb]. rewrite bind_eq, Test_children_hit by assumption.
    rewrite existsb_eqb_false.
    now destruct (forallb (satisfied (conditions w)) cs).
Qed.

Lemma Test_is_formula_witness :
  Test (fst (Load shorthand_block ConditionSet_new [])) (world0 {["license" := 1]})
  = Some (false, world0 {["license" := 1]}).
Proof.
  apply (Test_is_formula (fst (Load shorthand_block ConditionSet_new []))).
  - apply Load_well_formed.
  - unfold random_free. repeat constructor; discriminate.
Defined.

(** ** The draws [Test] makes *)

Lemma Test_value_drawn (key : string) (w w' : World) (v : Z) :
  Test_value key w = Some (v, w') ->
  drawn w' = (drawn w + if decide (key = "random") then 1 else 0)%nat.
Proof.
  destruct (decide (key = "random")) as [->|Hkey].
  - rewrite Test_value_random. intros [= _ <-]. cbn. lia.
  - rewrite Test_value_other by assumption. intros [= _ <-]. lia.
Qed.

Lemma Test_expression_drawn (e : Expression) (w w' : World) (r : bool) :
  Test_expression e w = Some (r, w') ->
  drawn w' = (drawn w + if decide (name e = "random") then 1 else 0)%nat.
Proof.
  rewrite Test_expression_eq.
  destruct (Test_value (name e) w) as [[v w1]|] eqn:E; [|discriminate].
  destruct (fun_ e); [|discriminate].
  intros [= _ <-]. now apply Test_value_drawn in E.
Qed.

Lemma Test_expressions_drawn (b : bool) (es : list Expression) (w w' : World)
    (r : option bool) :
  Test_expressions b es w = Some (r, w') ->
  (drawn w <= drawn w'
   <= drawn w + length (filter (fun e => name e = "random") es))%nat.
Proof.
  revert w. induction es as [|e es IH]; intros w.
  - intros [= _ <-]. cbn. lia.
  - cbn [Test_expressions]. rewrite bind_eq.
    destruct (Test_expression e w) as [[r0 w0]|] eqn:E; [|discriminate].
    apply Test_expression_drawn in E.
    rewrite filter_cons.
    destruct (Bool.eqb r0 b).
    + intros [= _ <-]. destruct (decide (name e = "random")); cbn [length]; lia.
    + intros H. apply IH in H.
      destruct (decide (name e = "random")); cbn [length]; lia.
Qed.

(** X7: [Test] asks the random source at most once per ["random"]
    expression of the set: when it returns, the number of draws made has
    grown by no more than the number of such expressions, and it has not
    shrunk. *)
Theorem Test_draws_bounded (self : ConditionSet) :
  forall (w w' : World) (r : bool),
    Test self w = Some (r, w') ->
    (drawn w <= drawn w' <= drawn w + random_count self)%nat.
Proof.
  unfold random_count.
  induction self as [b es cs IH] using ConditionSet_ind. intros w w' r.
  rewrite Test_unfold. cbn [isOr expressions children all_expressions].
  rewrite filter_app, length_app, bind_eq.
  destruct (Test_expressions b es w) as [[[r0|] w0]|] eqn:E; [| |discriminate];
    apply Test_expressions_drawn in E.
  - intros [= _ <-]. lia.
  - rewrite bind_eq.
    assert (Hcs : forall w1 w2 r1,
               Test_children b cs w1 = Some (r1, w2) ->
               (drawn w1 <= drawn w2
                <= drawn w1
                   + length (filter (fun e => name e = "random")
                               (flat_map all_expressions cs)))%nat).
    { clear -IH. induction IH as [|c cs Hc _ IHcs]; intros w1 w2 r1.
      - intros [= _ <-]. cbn. lia.
      - cbn [Test_children flat_map]. rewrite bind_eq, filter_app, length_app.
        destruct (Test c w1) as [[r w]|] eqn:E; [|discriminate].
        apply Hc in E.
        destruct (Bool.eqb r b).
        + intros [= _ <-]. lia.
        + intros H. apply IHcs in H. lia. }
    destruct (Test_children b cs w0) as [[r1 w1]|] eqn:E1; [|discriminate].
    apply Hcs in E1.
    destruct r1; intros [= _ <-]; lia.
Qed.

Lemma Test_draws_bounded_witness :
  (drawn (world0 ∅) <= drawn (with_drawn (world0 ∅) 1)
   <= drawn (world0 ∅) + random_count and_true_tree)%nat.
Proof.
  apply (Test_draws_bounded and_true_tree (world0 ∅) (with_drawn (world0 ∅) 1) true).
  vm_compute. reflexivity.
Defined.

(** ** What [Test] reads *)

Lemma agree_on_incl (keys keys' : list string) (w1 w2 : World) :
  (forall key, key ∈ keys' -> key ∈ keys) ->
  agree_on keys w1 w2 -> agree_on keys' w1 w2.
Proof. intros Hincl (Hs & Hd & Hm). repeat split; auto. Qed.

Lemma agree_on_after (keys : list string) (w1 w1' w2 : World) :
  conditions w1' = conditions w1 /\ source w1' = source w1 ->
  agree_on keys w1 w2 ->
  agree_on keys w1' (with_drawn w2 (drawn w1')).
Proof.
  intros [Hc Hs'] (Hs & Hd & Hm). unfold agree_on. cbn [with_drawn conditions source drawn].
  rewrite Hc, Hs'. repeat split; auto.
Qed.

Lemma Test_value_agree (key : string) (w1 w2 : World) :
  agree_on [key] w1 w2 ->
  Test_value key w2 =
  match Test_value key w1 with
  | Some (v, w1') => Some (v, with_drawn w2 (drawn w1'))
  | None => None
  end.
Proof.
  intros (Hs & Hd & Hm).
  destruct (decide (key = "random")) as [->|Hkey].
  - rewrite !Test_value_random. cbn [with_drawn drawn]. now rewrite Hs, Hd.
  - rewrite !Test_value_other by assumption.
    rewrite (Hm key) by (assumption || apply list_elem_of_here).
    rewrite Hd. now destruct w2.
Qed.

Lemma Test_expression_agree (e : Expression) (w1 w2 : World) :
  agree_on [name e] w1 w2 ->
  Test_expression e w2 =
  match Test_expression e w1 with
  | Some (r, w1') => Some (r, with_drawn w2 (drawn w1'))
  | None => None
  end.
Proof.
  intros Hagree. rewrite !Test_expression_eq, (Test_value_agree _ w1 w2 Hagree).
  destruct (Test_value (name e) w1) as [[v w1']|]; [|reflexivity].
  now destruct (fun_ e).
Qed.

Lemma Test_expressions_agree (b : bool) (es : list Expression) (w1 w2 : World) :
  agree_on (map name es) w1 w2 ->
  Test_expressions b es w2 =
  match Test_expressions b es w1 with
  | Some (r, w1') => Some (r, with_drawn w2 (drawn w1'))
  | None => None
  end.
Proof.
  revert w1 w2. induction es as [|e es IH]; intros w1 w2 Hagree.
  - cbn. unfold ret. destruct Hagree as (_ & -> & _). now destruct w2.
  - cbn [Test_expressions]. rewrite !bind_eq.
    rewrite (Test_expression_agree e w1 w2).
    2:{ eapply agree_on_incl; [|exact Hagree].
        intros key Hkey. apply list_elem_of_singleton in Hkey as ->.
        apply list_elem_of_here. }
    destruct (Test_expression e w1) as [[r w1']|] eqn:E; [|reflexivity].
    destruct (Bool.eqb r b); [reflexivity|].
    rewrite (IH w1' (with_drawn w2 (drawn w1'))); [reflexivity|].
    apply (agree_on_after _ w1); [now apply Test_expression_frame in E|].
    eapply agree_on_incl; [|exact Hagree].
    intros key Hkey. now apply list_elem_of_further.
Qed.

(** X8: [Test] looks at the map only under the names of the expressions of
    the set, and never under ["random"].  In two worlds with the same random
    source that agree on these entries it gives the same result and makes
    the same draws, whatever else the maps hold; it fails in one exactly when
    it fails in the other. *)
Theorem Test_reads_named (self : ConditionSet) :
  forall w1 w2 : World,
    same_view self w1 w2 ->
    Test self w2 =
    match Test self w1 with
    | Some (r, w1') => Some (r, with_drawn w2 (drawn w1'))
    | None => None
    end.
Proof.
  unfold same_view.
  induction self as [b es cs IH] using ConditionSet_ind. intros w1 w2.
  cbn [all_expressions expressions children]. rewrite map_app. intros Hagree.
  rewrite !Test_unfold. cbn [isOr expressions children]. rewrite !bind_eq.
  rewrite (Test_expressions_agree b es w1 w2)
    by (eapply agree_on_incl; [|exact Hagree];
        intros key Hkey; apply elem_of_app; now left).
  destruct (Test_expressions b es w1) as [[[r0|] w1']|] eqn:E; try reflexivity.
  rewrite !bind_eq.
  assert (Hagree' : agree_on (map name (flat_map all_expressions cs))
                      w1' (with_drawn w2 (drawn w1'))).
  { apply (agree_on_after _ w1); [now apply Test_expressions_frame in E|].
    eapply agree_on_incl; [|exact Hagree].
    intros key Hkey. apply elem_of_app. now right. }
  assert (Hcs : forall v1 v2,
             agree_on (map name (flat_map all_expressions cs)) v1 v2 ->
             Test_children b cs v2 =
             match Test_children b cs v1 with
             | Some (r, v1') => Some (r, with_drawn v2 (drawn v1'))
             | None => None
             end).
  { clear -IH. induction IH as [|c cs Hc _ IHcs]; intros v1 v2 Hagree.
    - cbn. unfold ret. destruct Hagree as (_ & -> & _). now destruct v2.
    - cbn [flat_map] in Hagree. rewrite map_app in Hagree.
      cbn [Test_children]. rewrite !bind_eq.
      rewrite (Hc v1 v2)
        by (eapply agree_on_incl; [|exact Hagree];
            intros key Hkey; apply elem_of_app; now left).
      destruct (Test c v1) as [[r v1']|] eqn:E; [|reflexivity].
      destruct (Bool.eqb r b); [reflexivity|].
      rewrite (IHcs v1' (with_drawn v2 (drawn v1'))); [reflexivity|].
      apply (agree_on_after _ v1); [now apply Test_frame in E|].
      eapply agree_on_incl; [|exact Hagree].
      intros key Hkey. apply elem_of_app. now right. }
  rewrite (Hcs w1' (with_drawn w2 (drawn w1')) Hagree').
  now destruct (Test_children b cs w1') as [[[r|] v1']|].
Qed.

Lemma Test_reads_named_witness :
  Test and_true_tree (world0 {["gold" := 9; "random" := 500]})
  = Some (true, with_drawn (world0 {["gold" := 9; "random" := 500]}) 1).
Proof.
  rewrite (Test_reads_named and_true_tree (world0 ∅)
             (world0 {["gold" := 9; "random" := 500]})); [reflexivity|].
  unfold same_view, agree_on. repeat split.
  intros key Hkey Hrandom. cbn in Hkey.
  rewrite !elem_of_cons, elem_of_nil in Hkey.
  destruct Hkey as [->|[->|[->|[]]]]; try reflexivity. congruence.
Defined.

(** ** [Apply], one condition at a time *)

Lemma key_steps_cons (key : string) (e : Expression) (es : list Expression) (v : Z) :
  key_steps key (e :: es) v =
  key_steps key es
    (if String.eqb (name e) key
     then match fun_ e with Some f => f v (value e) | None => v end
     else v).
Proof. reflexivity. Qed.

Lemma key_steps_unnamed (key : string) (es : list Expression) (v : Z) :
  existsb (fun e => String.eqb (name e) key) es = false ->
  key_steps key es v = v.
Proof.
  revert v. induction es as [|e es IH]; intros v; [reflexivity|].
  cbn [existsb]. rewrite key_steps_cons. intros H.
  apply orb_false_elim in H as [-> H]. now apply IH.
Qed.

Lemma fold_apply_step_key (key : string) (es : list Expression) (m : gmap string Z) :
  Forall bound es ->
  fold_left apply_step es m !! key =
  if existsb (fun e => String.eqb (name e) key) es
  then Some (key_steps key es (default 0 (m !! key)))
  else m !! key.
Proof.
  intros Hes. revert m. induction Hes as [|e es He _ IH]; intros m; [reflexivity|].
  cbn [fold_left existsb]. rewrite key_steps_cons, IH.
  destruct He as (Hfun & Hop & _).
  unfold apply_step. destruct (fun_ e) as [f|] eqn:Ef; [|congruence].
  destruct (String.eqb_spec (name e) key) as [<-|Hne]; cbn [orb].
  - rewrite lookup_insert_eq. cbn [default]. unfold id.
    destruct (existsb _ es) eqn:E; [reflexivity|].
    now rewrite key_steps_unnamed.
  - now rewrite lookup_insert_ne.
Qed.

(** X9: the conditions do not influence each other under [Apply].  On a set
    with bound functions the entry a key has afterwards is made from the
    value it had before (0 when absent) by the functions of the expressions
    that name this key, applied in the order [Apply] reaches them; the
    entries of other keys play no part, and a key that no expression names
    keeps its entry. *)
Theorem Apply_per_key (self : ConditionSet) (w : World) (key : string) :
  well_formed self ->
  exists w',
    Apply self w = Some (tt, w') /\
    conditions w' !! key =
    if existsb (fun e => String.eqb (name e) key) (all_expressions self)
    then Some (key_steps key (all_expressions self)
                 (default 0 (conditions w !! key)))
    else conditions w !! key.
Proof.
  intros Hwf. eexists. split; [now apply Apply_eq|].
  cbn [with_conditions conditions]. now apply fold_apply_step_key.
Qed.

Lemma Apply_per_key_witness :
  exists w',
    Apply gold_tree (world0 {["gold" := 10; "silver" := 3]}) = Some (tt, w') /\
    conditions w' !! "gold" = Some 6.
Proof.
  exact (Apply_per_key gold_tree (world0 {["gold" := 10; "silver" := 3]}) "gold"
           well_formed_gold_tree).
Defined.

(** ** [Apply] followed by [Test] *)

Lemma Apply_single (b : bool) (e : Expression) (f : BinFun) (w : World) :
  fun_ e = Some f ->
  Apply (single b e) w
  = Some (tt, with_conditions w
                (<[name e := f (default 0 (conditions w !! name e)) (value e)]>
                   (conditions w))).
Proof.
  intros Hf. rewrite Apply_unfold. unfold single.
  cbn [expressions children Apply_expressions Apply_children].
  rewrite !bind_eq, Apply_expression_eq, Hf. unfold apply_step. now rewrite Hf.
Qed.

Lemma Test_single_stored (b : bool) (key operator : string) (v current : Z)
    (f : BinFun) (w : World) :
  key <> "random" ->
  Op operator = Some f ->
  Test (single b (Expression_new key operator v))
       (with_conditions w (<[key := current]> (conditions w)))
  = Some (Int.to_bool (f current v),
          with_conditions w (<[key := current]> (conditions w))).
Proof.
  intros Hkey Hop. apply Test_single. rewrite Test_expression_eq.
  cbn [name fun_ value Expression_new].
  rewrite Test_value_other by assumption. rewrite Hop.
  cbn [with_conditions conditions]. now rewrite lookup_insert_eq.
Qed.

(** X10: [Apply] establishes what [Test] checks.  For a name other than
    ["random"], in any world and in either mode: after [name = v] the test
    [name == v] is true; after [name <?= v] the test [name <= v] is true;
    after [name >?= v] the test [name >= v] is true; after [set name] the
    test [has name] is true and [not name] is false; after [clear name] the
    test [not name] is true.  The tests leave the world that [Apply] made. *)
Theorem Apply_then_Test (key : string) (v : Z) (b b' : bool) (w : World) :
  key <> "random" ->
  let after (operator : string) (operand : Z) :=
    Apply (single b (Expression_new key operator operand)) w in
  let test (operator : string) (operand : Z) (r : bool) (w' : World) :=
    Test (single b' (Expression_new key operator operand)) w' = Some (r, w') in
  (exists w', after "=" v = Some (tt, w') /\ test "==" v true w') /\
  (exists w', after "<?=" v = Some (tt, w') /\ test "<=" v true w') /\
  (exists w', after ">?=" v = Some (tt, w') /\ test ">=" v true w') /\
  (exists w', after "=" 1 = Some (tt, w') /\
              test "!=" 0 true w' /\ test "==" 0 false w') /\
  (exists w', after "=" 0 = Some (tt, w') /\ test "==" 0 true w').
Proof.
  intros Hkey after test. subst after test. cbv beta.
  repeat match goal with |- _ /\ _ => split end;
    eexists;
    (split; [apply Apply_single; reflexivity|]);
    cbn [name value Expression_new];
    repeat match goal with |- _ /\ _ => split end;
    (erewrite Test_single_stored; [|assumption|reflexivity]);
    do 2 f_equal; cbv beta; unfold Int.of_bool, Int.to_bool, Int.min, Int.max.
  - now rewrite Z.eqb_refl.
  - destruct (Z.ltb_spec v (default 0 (conditions w !! key)));
      [rewrite Z.leb_refl | rewrite (proj2 (Z.leb_le _ _)) by lia]; reflexivity.
  - rewrite Z.geb_leb.
    destruct (Z.ltb_spec (default 0 (conditions w !! key)) v);
      [rewrite Z.leb_refl | rewrite (proj2 (Z.leb_le _ _)) by lia]; reflexivity.
Qed.

Lemma Apply_then_Test_witness :
  exists w',
    Apply (single false (Expression_new "fuel" "<?=" 100)) (world0 {["fuel" := 250]})
      = Some (tt, w') /\
    Test (single true (Expression_new "fuel" "<=" 100)) w' = Some (true, w').
Proof.
  assert (Hkey : "fuel" <> "random") by discriminate.
  exact (proj1 (proj2 (Apply_then_Test "fuel" 100 false true
                         (world0 {["fuel" := 250]}) Hkey))).
Defined.

(** X11: adding and then subtracting the same operand restores a
    condition.  When the value of the name (0 when absent) and its sum with
    the operand are representable, [Apply] of [name += v] followed by
    [name -= v] leaves the map as it was, except that the name now has an
    entry, with the value it had; in particular [name ++] followed by
    [name --] does. *)
Theorem Apply_add_then_sub (key : string) (v : Z) (b : bool) (w : World) :
  Int.in_range (default 0 (conditions w !! key)) ->
  Int.in_range (default 0 (conditions w !! key) + v) ->
  Apply {| isOr := b;
           expressions := [Expression_new key "+=" v; Expression_new key "-=" v];
           children := [] |} w
  = Some (tt, with_conditions w
                (<[key := default 0 (conditions w !! key)]> (conditions w))).
Proof.
  intros Hcur Hsum. rewrite Apply_unfold.
  cbn [expressions children Apply_expressions Apply_children].
  rewrite !bind_eq, Apply_expression_eq. cbn [fun_ Expression_new].
  change (Op "+=") with (Some (fun a b : Z => Int.add a b)). cbv iota.
  rewrite bind_eq, Apply_expression_eq. cbn [fun_ Expression_new].
  change (Op "-=") with (Some (fun a b : Z => Int.sub a b)). cbv iota.
  unfold ret, apply_step. cbn [fun_ name value Expression_new with_conditions conditions source drawn].
  change (Op "+=") with (Some (fun a b : Z => Int.add a b)).
  change (Op "-=") with (Some (fun a b : Z => Int.sub a b)). cbv iota beta.
  rewrite lookup_insert_eq, insert_insert_eq.
  change (default 0 (Some ?x)) with x.
  unfold Int.add, Int.sub. rewrite (wrap_id _ Hsum).
  replace (default 0 (conditions w !! key) + v - v)
    with (default 0 (conditions w !! key)) by lia.
  now rewrite (wrap_id _ Hcur).
Qed.

Lemma Apply_add_then_sub_witness :
  Apply {| isOr := false;
           expressions := [Expression_new "visits" "+=" 1;
                           Expression_new "visits" "-=" 1];
           children := [] |} (world0 {["visits" := 41]})
  = Some (tt, world0 {["visits" := 41]}).
Proof.
  rewrite (Apply_add_then_sub "visits" 1 false (world0 {["visits" := 41]}));
    [reflexivity | |];
    unfold Int.in_range; split; apply Z.leb_le; vm_compute; reflexivity.
Defined.

(** ** What [Load] builds and reports *)

Lemma Load_sink (node : DataNode) (self : ConditionSet) (sink : Diagnostics) :
  Load node self sink
  = (fst (Load node self []), sink ++ snd (Load node self [])).
Proof. unfold Load. apply Add_each_sink_all. Qed.

Lemma Add_each_declarative (lines : list DataNode) (self : ConditionSet)
    (sink : Diagnostics) :
  fst (Add_each lines (self, sink))
  = {| isOr := isOr self;
       expressions := expressions self ++ omap line_expression lines;
       children :=
         children self
         ++ map loaded (filter (fun line => is_group line = true) lines) |}.
Proof.
  revert self sink. induction lines as [|line lines IH]; intros self sink.
  - cbn. rewrite !app_nil_r. now destruct self.
  - cbn [Add_each fst snd omap list_omap]. rewrite filter_cons.
    rewrite Add_by_kind.
    destruct (line_expression line) as [e|] eqn:He.
    + assert (Hg : is_group line = false).
      { destruct line as [ts ns]. unfold line_expression, is_group in *.
        cbn [tokens] in *.
        destruct ts as [|first [|? ?]]; try reflexivity.
        destruct (String.eqb first "never"); [reflexivity | discriminate]. }
      rewrite IH. rewrite Hg. cbn [isOr expressions children emplace_back].
      destruct (decide (false = true)); [discriminate|].
      now rewrite <- app_assoc.
    + destruct (is_group line) eqn:Hg.
      * rewrite (Load_sink line ConditionSet_new sink).
        rewrite IH. cbn [isOr expressions children push_child].
        destruct (decide (true = true)); [|congruence].
        cbn [map]. fold (loaded line). now rewrite <- app_assoc.
      * rewrite IH. destruct (decide (false = true)); [discriminate|].
        reflexivity.
Qed.

(** X12: the set [Load] builds in a fresh [ConditionSet] holds the
    expressions of the expression lines of the node, in the order of the
    lines, and one child per [and] or [or] line, in the order of these
    lines, each the set loaded from its line.  How expression lines and
    nested sets were interleaved is not kept: all expressions come before
    all children, which is the order [Test] and [Apply] follow. *)
Theorem Load_declarative (node : DataNode) (sink : Diagnostics) :
  fst (Load node ConditionSet_new sink)
  = {| isOr := String.eqb (Token node 0) "or";
       expressions := omap line_expression (nodes node);
       children :=
         map loaded (filter (fun line => is_group line = true) (nodes node)) |}.
Proof. unfold Load. now rewrite Add_each_declarative. Qed.

Lemma Add_each_rejected (lines : list DataNode) :
  Forall (fun node => forall self,
            snd (Add node self [])
            = map (fun ts => (unrecognized, ts)) (rejected node)) lines ->
  forall self,
    snd (Add_each lines (self, []))
    = map (fun ts => (unrecognized, ts)) (flat_map rejected lines).
Proof.
  induction 1 as [|line lines Hline _ IH]; intros self; [reflexivity|].
  cbn [Add_each fst snd flat_map]. rewrite map_app, <- (Hline self).
  destruct (Add line self []) as [self1 sink1]. cbn [fst snd].
  rewrite Add_each_sink_all. cbn [snd]. now rewrite IH.
Qed.

Lemma Add_rejected (node : DataNode) :
  forall self,
    snd (Add node self [])
    = map (fun ts => (unrecognized, ts)) (rejected node).
Proof.
  induction node as [ts ns IH] using DataNode_ind. intros self.
  rewrite Add_by_kind.
  replace (rejected (mkDataNode ts ns))
    with (match line_expression (mkDataNode ts ns) with
          | Some _ => []
          | None =>
              if is_group (mkDataNode ts ns) then flat_map rejected ns
              else [ts]
          end) by reflexivity.
  destruct (line_expression (mkDataNode ts ns)); [reflexivity|].
  destruct (is_group (mkDataNode ts ns)); [|reflexivity].
  unfold Load. cbn [nodes].
  pose proof (Add_each_rejected ns IH
                {| isOr := String.eqb (Token (mkDataNode ts ns) 0) "or";
                   expressions := expressions ConditionSet_new;
                   children := children ConditionSet_new |}) as H.
  now destruct (Add_each ns _).
Qed.

(** X13: [Load] reports each rejected line exactly once and nothing else.
    The diagnostics it adds to the sink are, in document order, one message
    with the tokens of the line for every line that matches no rule, where
    the lines below an [and] or [or] line are visited and the lines below
    any other line are not. *)
Theorem Load_reports_rejected (node : DataNode) (self : ConditionSet)
    (sink : Diagnostics) :
  snd (Load node self sink)
  = sink ++ map (fun ts => (unrecognized, ts)) (flat_map rejected (nodes node)).
Proof.
  rewrite Load_sink. cbn [snd]. f_equal. unfold Load.
  apply Add_each_rejected. apply Forall_forall. intros line _.
  apply Add_rejected.
Qed.

(** X14: lines nested below a line that is not an [and] or [or] line are
    ignored without a diagnostic: an expression line and a rejected line do
    the same whatever is indented below them. *)
Theorem Add_ignores_nested (ts : list string) (below below' : list DataNode)
    (self : ConditionSet) (sink : Diagnostics) :
  is_group (mkDataNode ts below) = false ->
  Add (mkDataNode ts below) self sink = Add (mkDataNode ts below') self sink.
Proof.
  intros Hg. rewrite !Add_by_kind.
  change (line_expression (mkDataNode ts below'))
    with (line_expression (mkDataNode ts below)).
  change (is_group (mkDataNode ts below')) with (is_group (mkDataNode ts below)).
  now rewrite Hg.
Qed.

Lemma Add_ignores_nested_witness :
  Add (mkDataNode ["has"; "license"] [mkDataNode ["never"] []]) ConditionSet_new []
  = Add (mkDataNode ["has"; "license"] []) ConditionSet_new [].
Proof.
  apply (Add_ignores_nested ["has"; "license"] [mkDataNode ["never"] []] []).
  reflexivity.
Defined.
